(** * Property/photo consistency and caching layer of Newstack

    Shallow embedding of [server/modules/properties/property.service.ts]
    (src/unnamed/part_002), of the reconcile-photos route handler
    (src/unnamed/part_001) and of the [create_property_with_photos] store
    procedure (src/migrations/0002_create_property_with_photos.sql).

    Asynchronous calls are sequenced in a state-and-exception monad over a
    [World]: the store's tables, the process-wide TTL cache, a log of the
    observable effects (store calls, cache operations, ownership-cache
    invalidations) and an oracle deciding which store calls fail and how
    (an error returned in the [{data, error}] response, or a rejected
    promise).  A thrown JS exception is [Throw]; the world reached at the
    throw point is kept, as JS does not roll back effects. *)

From Stdlib Require Import String Ascii ZArith Znumtheory Zpow_facts QArith Qround Qabs Qpower
  SpecFloat.
From stdpp Require Import base list gmap strings pretty.

Open Scope string_scope.
Open Scope list_scope.

(* ------------------------------------------------------------------ *)
(** ** Data model *)

(** A row of the [properties] table: identity, owner, image list and the
    other descriptive columns as name/value pairs. *)
Record Property := mkProperty {
  prop_id : string;
  owner_id : string;
  images : list string;
  prop_fields : list (string * string);
  view_count : Z
}.

(** A row of the [photos] table; [metadata.source] is kept as [source]. *)
Record Photo := mkPhoto {
  photo_id : string;
  url : string;
  thumbnail_url : string;
  category : string;
  uploader_id : option string;
  property_id : option string;
  source : string
}.

(** The store: both tables in row order, and the id generator. *)
Record DB := mkDB {
  properties : list Property;
  photos : list Photo;
  next_id : N
}.

(** A JS number, such as [Number(params.page)]: an IEEE 754 binary64
    value, as [spec_float] with 53-bit precision and maximal exponent 1024. *)
Definition JNum := spec_float.

(** Pagination block of a [GetPropertiesResult]. *)
Record Pagination := mkPagination {
  pg_page : JNum;
  pg_limit : JNum;
  pg_total : Z;
  pg_totalPages : JNum;
  pg_hasNextPage : bool;
  pg_hasPrevPage : bool
}.

Record ListResult := mkListResult {
  lr_properties : list Property;
  lr_pagination : Pagination
}.

(** Values held by the cache. *)
Inductive CVal := CProp (p : Property) | CList (r : ListResult).

(** Modelled from the spec: the TTL cache module ([../../cache]) is not in
    src/.  An entry is a value with its expiry instant. *)
Abbreviation Cache := (gmap string (CVal * Z)).

(** Store calls, as seen by the failure oracle and the effect log. *)
Inductive Op :=
  | OpGetClient
  | OpFindProperty (id : string)
  | OpFindAll
  | OpUpdateProperty (id : string)
  | OpDeleteProperty (id : string)
  | OpIncrementViews (id : string)
  | OpLookupOrphanByUrl (u : string)
  | OpUpdatePhoto (phid : string)
  | OpInsertPhotos
  | OpRpcCreate
  | OpFetchOrphans
  | OpLookupPropertyByImage (u : string)
  | OpProcInsertProperty
  | OpProcInsertPhoto (u : string).

(** How a store call fails: an [error] in the resolved response, or a
    rejected promise. *)
Inductive Fail := FErr | FThrow.

Inductive Event :=
  | EStore (o : Op)
  | ECacheGet (k : string)
  | ECacheSet (k : string)
  | ECacheInval (k : string)
  | EOwnInval (resource : string) (id : string).

Record World := mkWorld {
  w_db : DB;
  w_cache : Cache;
  w_log : list Event;
  w_now : Z;
  w_fail : Op -> option Fail;
  w_ttl_list : Z;
  w_ttl_detail : Z
}.

(* ------------------------------------------------------------------ *)
(** ** JS numbers *)

(** The number value of an integer (round to nearest, ties to even). *)
Definition js_of_Z (z : Z) : JNum := binary_normalize 53 1024 z 0 false.

(** The number value of a rational (round to nearest, ties to even), as
    the ECMAScript number value for v. *)
Definition js_of_Q (v : Q) : JNum :=
  let v := Qred v in
  match Qnum v with
  | Z0 => S754_zero false
  | Zpos p =>
      let '(mz, ez, lz) := SFdiv_core_binary 53 1024 (Zpos p) 0 (Zpos (Qden v)) 0 in
      binary_round_aux 53 1024 false mz ez lz
  | Zneg p =>
      let '(mz, ez, lz) := SFdiv_core_binary 53 1024 (Zpos p) 0 (Zpos (Qden v)) 0 in
      binary_round_aux 53 1024 true mz ez lz
  end.

(** Structural equality of numbers. *)
Definition sf_eqb (x y : JNum) : bool :=
  match x, y with
  | S754_zero a, S754_zero b => Bool.eqb a b
  | S754_infinity a, S754_infinity b => Bool.eqb a b
  | S754_nan, S754_nan => true
  | S754_finite a m e, S754_finite b m' e' => Bool.eqb a b && Pos.eqb m m' && Z.eqb e e'
  | _, _ => false
  end.

(** The decimal digit [d] as a character. *)
Definition digit_char (d : Z) : ascii := ascii_of_N (48 + Z.to_N d).

(** The value of a decimal digit character. *)
Definition digit_val (c : ascii) : option Z :=
  let n := N_of_ascii c in
  if (48 <=? n)%N && (n <=? 57)%N then Some (Z.of_N (n - 48)) else None.

(** The [k] lowest decimal digits of [v], most significant first. *)
Fixpoint digits_of (v : Z) (k : nat) : string :=
  match k with
  | O => ""
  | S k' => String (digit_char ((v / 10 ^ Z.of_nat k') mod 10)) (digits_of v k')
  end.

(** The number of decimal digits of [v] (at least 1), within [fuel] steps. *)
Fixpoint digits10 (v : Z) (fuel : nat) : nat :=
  match fuel with
  | O => 0
  | S f => if (v <? 10)%Z then 1 else S (digits10 (v / 10) f)
  end.

Definition num_digits (v : Z) : nat := digits10 v (Pos.size_nat (Z.to_pos v)).

(** ECMAScript [Number::toString] (step 6 to 12) of the positive value
    [s * 10 ^ (n - k)], where [s] has [k] digits. *)
Definition format_decimal (s n : Z) (k : nat) : string :=
  let kz := Z.of_nat k in
  if ((kz <=? n) && (n <=? 21))%Z then digits_of s k +:+ digits_of 0 (Z.to_nat (n - kz))
  else if ((0 <? n) && (n <=? 21))%Z then
    digits_of (s / 10 ^ (kz - n)) (Z.to_nat n) +:+ "." +:+ digits_of s (Z.to_nat (kz - n))
  else if ((-6 <? n) && (n <=? 0))%Z then
    "0." +:+ digits_of 0 (Z.to_nat (- n)) +:+ digits_of s k
  else
    let ex := (if (0 <? n - 1)%Z then "e+" else "e-") +:+
              digits_of (Z.abs (n - 1)) (num_digits (Z.abs (n - 1))) in
    if (k =? 1)%nat then digits_of s 1 +:+ ex
    else digits_of (s / 10 ^ (kz - 1)) 1 +:+ "." +:+ digits_of s (k - 1) +:+ ex.

(** [10 ^ j] as a rational. *)
Definition Q10 (j : Z) : Q := Qpower (inject_Z 10) j.

(** The [n] with [10 ^ (n - 1) <= v < 10 ^ n], for [v >= 10 ^ -400]. *)
Definition dec_exponent (v : Q) : Z :=
  Z.of_nat (num_digits (Qfloor (v * inject_Z (10 ^ 400))%Q)) - 400.

(** [s] with exactly [k] digits and number value of [s * 10 ^ (n - k)] equal to [x]. *)
Definition candidate (x : JNum) (s n : Z) (k : nat) : option (Z * Z * nat) :=
  if ((10 ^ (Z.of_nat k - 1) <=? s) && (s <? 10 ^ Z.of_nat k))%Z
     && sf_eqb (js_of_Q (inject_Z s * Q10 (n - Z.of_nat k))%Q) x
  then Some (s, n, k) else None.

(** Of two candidates, the one whose value is closer to [v]; the even
    digit string on a tie. *)
Definition closer (v : Q) (a b : Z * Z * nat) : Z * Z * nat :=
  let '(sa, na, k) := a in
  let '(sb, nb, _) := b in
  let da := Qabs (inject_Z sa * Q10 (na - Z.of_nat k) - v)%Q in
  let db := Qabs (inject_Z sb * Q10 (nb - Z.of_nat k) - v)%Q in
  match Qcompare da db with
  | Lt => a
  | Gt => b
  | Eq => if Z.even sa then a else b
  end.

(** The [k]-digit candidates next to [v] below and above, the closer
    one when both denote [x]. *)
Definition best_candidate (x : JNum) (v : Q) (k : nat) : option (Z * Z * nat) :=
  let n := dec_exponent v in
  let y := (v * Q10 (Z.of_nat k - n))%Q in
  let sf := Qfloor y in
  let sc := Qceiling y in
  let c1 := candidate x sf n k in
  let c2 := if (sc =? 10 ^ Z.of_nat k)%Z then candidate x (10 ^ (Z.of_nat k - 1)) (n + 1) k
            else candidate x sc n k in
  match c1, c2 with
  | Some a, Some b => Some (closer v a b)
  | Some a, None => Some a
  | None, c => c
  end.

(** The least [k] (from the given one) for which [k] digits denote [x]. *)
Fixpoint shortest_from (x : JNum) (v : Q) (k : nat) (fuel : nat) : option (Z * Z * nat) :=
  match fuel with
  | O => None
  | S fuel' =>
      match best_candidate x v k with
      | Some r => Some r
      | None => shortest_from x v (S k) fuel'
      end
  end.

(** The exact decimal value of [m * 2 ^ e], as [s * 10 ^ j]. *)
Definition exact_decimal (m : positive) (e : Z) : Z * Z :=
  if (0 <=? e)%Z then (Zpos m * 2 ^ e, 0)%Z else (Zpos m * 5 ^ (- e), e)%Z.

(** [Number::toString] of the positive finite number [m * 2 ^ e]: the
    shortest digit string that denotes it. *)
Definition positive_to_string (m : positive) (e : Z) : string :=
  let v := (inject_Z (Zpos m) * Qpower (inject_Z 2) e)%Q in
  match shortest_from (S754_finite false m e) v 1 17 with
  | Some (s, n, k) => format_decimal s n k
  | None =>
      let '(s, j) := exact_decimal m e in
      format_decimal s (j + Z.of_nat (num_digits s))%Z (num_digits s)
  end.

(** [String(x)] of a number, ECMAScript [Number::toString] in radix 10. *)
Definition js_number_to_string (x : JNum) : string :=
  match x with
  | S754_nan => "NaN"
  | S754_zero _ => "0"
  | S754_infinity false => "Infinity"
  | S754_infinity true => "-Infinity"
  | S754_finite false m e => positive_to_string m e
  | S754_finite true m e => "-" +:+ positive_to_string m e
  end.

(** Reading a decimal string back (used to show that [String] separates
    numbers): the longest run of digits, its value and length. *)
Fixpoint read_digits (acc : Z) (n : nat) (s : string) : Z * nat * string :=
  match s with
  | String c s' =>
      match digit_val c with
      | Some d => read_digits (10 * acc + d)%Z (S n) s'
      | None => (acc, n, s)
      end
  | EmptyString => (acc, n, EmptyString)
  end.

(** An optional exponent [e+A] or [e-A]. *)
Definition read_exponent (s : string) : option Z :=
  match s with
  | EmptyString => Some 0%Z
  | String c (String sg r) =>
      if Ascii.eqb c "e" then
        let '(a, n, r') := read_digits 0 0 r in
        if (n =? 0)%nat then None else
        match r' with
        | EmptyString =>
            if Ascii.eqb sg "+" then Some a
            else if Ascii.eqb sg "-" then Some (- a)%Z else None
        | _ => None
        end
      else None
  | _ => None
  end.

(** The value of [digits], [digits.digits], each with an optional exponent. *)
Definition decimal_value (s : string) : option Q :=
  let '(a, na, r) := read_digits 0 0 s in
  if (na =? 0)%nat then None else
  match r with
  | String c r1 =>
      if Ascii.eqb c "." then
        let '(b, nb, r2) := read_digits 0 0 r1 in
        match read_exponent r2 with
        | Some x => Some ((inject_Z a + inject_Z b / inject_Z (10 ^ Z.of_nat nb)) * Q10 x)%Q
        | None => None
        end
      else match read_exponent r with Some x => Some (inject_Z a * Q10 x)%Q | None => None end
  | EmptyString => Some (inject_Z a)
  end.


(** [x || d] on a number: NaN, [+0] and [-0] are falsy. *)
Definition js_or (x d : JNum) : JNum :=
  match x with
  | S754_nan | S754_zero _ => d
  | _ => x
  end.

(** [Math.max(a, b)]: NaN if either is NaN, [+0] above [-0]. *)
Definition js_max (a b : JNum) : JNum :=
  match a, b with
  | S754_nan, _ | _, S754_nan => S754_nan
  | S754_zero sa, S754_zero sb => S754_zero (sa && sb)
  | _, _ => if SFltb a b then b else a
  end.

(** [Math.min(a, b)]: NaN if either is NaN, [-0] below [+0]. *)
Definition js_min (a b : JNum) : JNum :=
  match a, b with
  | S754_nan, _ | _, S754_nan => S754_nan
  | S754_zero sa, S754_zero sb => S754_zero (sa || sb)
  | _, _ => if SFltb b a then b else a
  end.

(** [Math.ceil(x)]: a value with no fractional bits is returned as it is;
    a negative value above [-1] gives [-0]. *)
Definition js_ceil (x : JNum) : JNum :=
  match x with
  | S754_finite s m e =>
      if (0 <=? e)%Z then x
      else
        let q := (Zpos m / 2 ^ (- e))%Z in
        let r := (Zpos m mod 2 ^ (- e))%Z in
        if s then (if (q =? 0)%Z then S754_zero true else js_of_Z (- q))
        else js_of_Z (if (r =? 0)%Z then q else q + 1)
  | _ => x
  end.

(** The integer part of a finite number (0 for NaN and the infinities). *)
Definition js_trunc (x : JNum) : Z :=
  match x with
  | S754_finite s m e =>
      let a := if (0 <=? e)%Z then (Zpos m * 2 ^ e)%Z else (Zpos m / 2 ^ (- e))%Z in
      if s then (- a)%Z else a
  | _ => 0%Z
  end.

(* ------------------------------------------------------------------ *)
(** ** The state-and-exception monad *)

Inductive Outcome (A : Type) := Ret (a : A) | Throw (msg : string).
Arguments Ret {A} a.
Arguments Throw {A} msg.

Definition M (A : Type) := World -> Outcome A * World.

Definition mret {A} (a : A) : M A := fun w => (Ret a, w).
Definition mbind {A B} (m : M A) (k : A -> M B) : M B :=
  fun w => match m w with
           | (Ret a, w') => k a w'
           | (Throw e, w') => (Throw e, w')
           end.
Definition mthrow {A} (e : string) : M A := fun w => (Throw e, w).

(** [try { m } catch (e) { h(e) }] *)
Definition mcatch {A} (m : M A) (h : string -> M A) : M A :=
  fun w => match m w with
           | (Ret a, w') => (Ret a, w')
           | (Throw e, w') => h e w'
           end.

Notation "x <- m ;; k" := (mbind m (fun x => k))
  (at level 100, m at next level, right associativity).
Notation "m ;;; k" := (mbind m (fun _ => k))
  (at level 100, right associativity).

Definition get_world : M World := fun w => (Ret w, w).
Definition put_world (w : World) : M unit := fun _ => (Ret tt, w).

Definition set_db (w : World) (d : DB) : World :=
  mkWorld d (w_cache w) (w_log w) (w_now w) (w_fail w) (w_ttl_list w) (w_ttl_detail w).
Definition set_cache (w : World) (c : Cache) : World :=
  mkWorld (w_db w) c (w_log w) (w_now w) (w_fail w) (w_ttl_list w) (w_ttl_detail w).
Definition log_event (w : World) (e : Event) : World :=
  mkWorld (w_db w) (w_cache w) (w_log w ++ [e]) (w_now w) (w_fail w)
    (w_ttl_list w) (w_ttl_detail w).

Definition emit (e : Event) : M unit := fun w => (Ret tt, log_event w e).
Definition modify_db (f : DB -> DB) : M unit :=
  fun w => (Ret tt, set_db w (f (w_db w))).

(** Issue a store call: it is logged and the oracle says how it ends. *)
Definition store_call (o : Op) : M (option Fail) :=
  fun w => (Ret (w_fail w o), log_event w (EStore o)).

(* ------------------------------------------------------------------ *)
(** ** TTL cache *)

(** Modelled from the spec (4.1): [get] returns a live entry, and evicts
    an entry whose expiry has passed. *)
Definition cache_get (k : string) : M (option CVal) :=
  fun w =>
    let w1 := log_event w (ECacheGet k) in
    match w_cache w !! k with
    | Some (v, exp) =>
        if Z.ltb exp (w_now w) then (Ret None, set_cache w1 (delete k (w_cache w)))
        else (Ret (Some v), w1)
    | None => (Ret None, w1)
    end.

(** Modelled from the spec (4.1): [set(key, value, ttl)]. *)
Definition cache_set (k : string) (v : CVal) (ttl : Z) : M unit :=
  fun w => (Ret tt, set_cache (log_event w (ECacheSet k))
                        (<[k := (v, (w_now w + ttl)%Z)]> (w_cache w))).

(** Modelled from the spec (4.1): [invalidate(target)] drops every entry
    whose key equals or starts with [target]. *)
Definition cache_invalidate (target : string) : M unit :=
  fun w => (Ret tt, set_cache (log_event w (ECacheInval target))
                        (filter (fun kv => String.prefix target kv.1 = false)
                           (w_cache w))).

(** [invalidateOwnershipCache(resource, id)] of the auth middleware (not in
    src/): only its call is observable here. *)
Definition invalidateOwnershipCache (resource id : string) : M unit :=
  emit (EOwnInval resource id).

(* ------------------------------------------------------------------ *)
(** ** Helpers on rows *)

Definition find_prop (id : string) (ps : list Property) : option Property :=
  List.find (fun p => String.eqb (prop_id p) id) ps.

Definition field (name : string) (p : Property) : option string :=
  match List.find (fun kv => String.eqb kv.1 name) (prop_fields p) with
  | Some kv => Some kv.2
  | None => None
  end.

(** A request body's update data: its columns, and [images] when it is an
    array (anything else fails [Array.isArray]). *)
Record Patch := mkPatch {
  patch_fields : list (string * string);
  patch_images : option (list string)
}.

Definition apply_patch (pa : Patch) (p : Property) : Property :=
  mkProperty (prop_id p) (owner_id p)
    (default (images p) (patch_images pa))
    (patch_fields pa ++ prop_fields p) (view_count p).

Definition map_prop (id : string) (f : Property -> Property) (d : DB) : DB :=
  mkDB (map (fun p => if String.eqb (prop_id p) id then f p else p) (properties d))
    (photos d) (next_id d).

Definition fresh_id (d : DB) : string := "id" +:+ pretty (next_id d).

(** Insert photo rows, each receiving a generated id. *)
Fixpoint insert_rows (rows : list Photo) (d : DB) : DB :=
  match rows with
  | [] => d
  | r :: rs =>
      insert_rows rs
        (mkDB (properties d)
           (photos d ++ [mkPhoto (fresh_id d) (url r) (thumbnail_url r) (category r)
                           (uploader_id r) (property_id r) (source r)])
           (N.succ (next_id d)))
  end.

Definition set_photo_property (phid pid : string) (d : DB) : DB :=
  mkDB (properties d)
    (map (fun ph => if String.eqb (photo_id ph) phid
                    then mkPhoto (photo_id ph) (url ph) (thumbnail_url ph) (category ph)
                           (uploader_id ph) (Some pid) (source ph)
                    else ph) (photos d))
    (next_id d).

(* ------------------------------------------------------------------ *)
(** ** Property repository ([./property.repository], not in src/) *)

(** Modelled from the spec: [findPropertyById] reads the row; a store
    fault surfaces as a thrown StoreFault. *)
Definition repo_findPropertyById (id : string) : M (option Property) :=
  r <- store_call (OpFindProperty id) ;;
  match r with
  | Some _ => mthrow "StoreFault"
  | None => w <- get_world ;; mret (find_prop id (properties (w_db w)))
  end.

(** Modelled from the spec: [updateProperty] applies the patch to the row
    and returns the updated row. *)
Definition repo_updateProperty (id : string) (pa : Patch) : M Property :=
  r <- store_call (OpUpdateProperty id) ;;
  match r with
  | Some _ => mthrow "StoreFault"
  | None =>
      modify_db (map_prop id (apply_patch pa)) ;;;
      w <- get_world ;;
      match find_prop id (properties (w_db w)) with
      | Some p => mret p
      | None => mthrow "Property not found"
      end
  end.

(** Modelled from the spec: [deleteProperty] removes the row. *)
Definition repo_deleteProperty (id : string) : M unit :=
  r <- store_call (OpDeleteProperty id) ;;
  match r with
  | Some _ => mthrow "StoreFault"
  | None =>
      modify_db (fun d => mkDB (List.filter (fun p => negb (String.eqb (prop_id p) id))
                                  (properties d)) (photos d) (next_id d))
  end.

(** Modelled from the spec: the view counter increment of spec 4.2.  A
    store fault surfaces as a thrown [StoreFault], as for the other
    repository calls. *)
Definition repo_incrementPropertyViews (id : string) : M unit :=
  r <- store_call (OpIncrementViews id) ;;
  match r with
  | Some _ => mthrow "StoreFault"
  | None => modify_db (map_prop id (fun p =>
              mkProperty (prop_id p) (owner_id p) (images p) (prop_fields p)
                (view_count p + 1)%Z))
  end.

(** Filters of a listing query. *)
Record GetPropertiesParams := mkParams {
  gp_propertyType : option string;
  gp_city : option string;
  gp_minPrice : option string;
  gp_maxPrice : option string;
  gp_status : option string;
  gp_ownerId : option string;
  gp_page : JNum;   (* Number(params.page) *)
  gp_limit : JNum   (* Number(params.limit) *)
}.

Definition opt_filter (v : option string) (actual : option string) : bool :=
  match v with
  | None => true
  | Some s => bool_decide (actual = Some s)
  end.

(** Modelled from the spec: [findAllProperties] returns the requested page
    of the matching rows with the total count of matching rows.  Equality
    filters on type, city, status and owner are modelled; the price bounds
    are passed through and not modelled.  The page is read from the
    integer parts of the page and limit numbers. *)
Definition matching_rows (params : GetPropertiesParams) (d : DB) : list Property :=
  List.filter (fun p =>
    opt_filter (gp_propertyType params) (field "property_type" p)
    && opt_filter (gp_city params) (field "city" p)
    && opt_filter (gp_status params) (field "status" p)
    && opt_filter (gp_ownerId params) (Some (owner_id p)))
    (properties d).

Definition repo_findAllProperties (params : GetPropertiesParams) (page limit : JNum)
  : M (list Property * Z) :=
  r <- store_call OpFindAll ;;
  match r with
  | Some _ => mthrow "StoreFault"
  | None =>
      w <- get_world ;;
      let rows := matching_rows params (w_db w) in
      let pg := js_trunc page in
      let lim := js_trunc limit in
      mret (List.firstn (Z.to_nat lim) (List.skipn (Z.to_nat ((pg - 1) * lim)) rows),
            Z.of_nat (length rows))
  end.

(* ------------------------------------------------------------------ *)
(** ** property.service: queries *)

(** [Math.max(1, Number(params.page) || 1)] *)
Definition clamp_page (n : JNum) : JNum := js_max (js_of_Z 1) (js_or n (js_of_Z 1)).

(** [Math.min(100, Math.max(1, Number(params.limit) || 20))] *)
Definition clamp_limit (n : JNum) : JNum :=
  js_min (js_of_Z 100) (js_max (js_of_Z 1) (js_or n (js_of_Z 20))).

(** The listing cache key: [[...].join(":")]. *)
Definition listing_key (params : GetPropertiesParams) : string :=
  String.concat ":"
    ["properties";
     default "" (gp_propertyType params);
     default "" (gp_city params);
     default "" (gp_minPrice params);
     default "" (gp_maxPrice params);
     default "active" (gp_status params);
     default "" (gp_ownerId params);
     js_number_to_string (clamp_page (gp_page params));
     js_number_to_string (clamp_limit (gp_limit params))].

(** [Math.ceil(count / limit)] *)
Definition total_pages (count : Z) (limit : JNum) : JNum :=
  js_ceil (SFdiv 53 1024 (js_of_Z count) limit).

(** The [pagination] object: [hasNextPage: page < totalPages],
    [hasPrevPage: page > 1]. *)
Definition mk_pagination (page limit : JNum) (count : Z) : Pagination :=
  let totalPages := total_pages count limit in
  mkPagination page limit count totalPages
    (SFltb page totalPages) (SFltb (js_of_Z 1) page).

Definition getProperties (params : GetPropertiesParams) : M CVal :=
  let page := clamp_page (gp_page params) in
  let limit := clamp_limit (gp_limit params) in
  let cacheKey := listing_key params in
  cached <- cache_get cacheKey ;;
  match cached with
  | Some v => mret v
  | None =>
      res <- repo_findAllProperties params page limit ;;
      let '(data, count) := res in
      let result := CList (mkListResult data (mk_pagination page limit count)) in
      w <- get_world ;;
      cache_set cacheKey result (w_ttl_list w) ;;;
      mret result
  end.

Definition detail_key (id : string) : string := "property:" +:+ id.

Definition getPropertyById (id : string) : M (option CVal) :=
  let cacheKey := detail_key id in
  cached <- cache_get cacheKey ;;
  match cached with
  | Some v => mret (Some v)
  | None =>
      property <- repo_findPropertyById id ;;
      match property with
      | None => mret None
      | Some p =>
          w <- get_world ;;
          cache_set cacheKey (CProp p) (w_ttl_detail w) ;;;
          mret (Some (CProp p))
      end
  end.

(* ------------------------------------------------------------------ *)
(** ** property.service: mutations *)

(** [getSupabaseOrThrow()]: throws when the client is not configured. *)
Definition getSupabaseOrThrow : M unit :=
  r <- store_call OpGetClient ;;
  match r with
  | Some _ => mthrow "Supabase is not configured"
  | None => mret tt
  end.

(** The photo row queued by [updateProperty] for an image URL. *)
Definition update_photo_row (u : string) (userId : option string) (id : string) : Photo :=
  mkPhoto "" u u "property"
    (match userId with Some s => if String.eqb s "" then None else Some s | None => None end)
    (Some id) "property_update".

Definition find_orphan_by_url (u : string) (d : DB) : option Photo :=
  List.find (fun ph => String.eqb (url ph) u && bool_decide (property_id ph = None))
    (photos d).

(** One iteration of the [for (const url of images)] loop, with its
    [try]/[catch]. *)
Definition assoc_one (id : string) (userId : option string) (u : string)
    (toInsert : list Photo) : M (list Photo) :=
  let row := update_photo_row u userId id in
  mcatch
    (r <- store_call (OpLookupOrphanByUrl u) ;;
     match r with
     | Some FThrow => mthrow "lookup failed"
     | Some FErr => mret (toInsert ++ [row])%list
     | None =>
         w <- get_world ;;
         match find_orphan_by_url u (w_db w) with
         | Some existing =>
             r2 <- store_call (OpUpdatePhoto (photo_id existing)) ;;
             match r2 with
             | Some FThrow => mthrow "update failed"
             | Some FErr => mret toInsert
             | None => modify_db (set_photo_property (photo_id existing) id) ;;; mret toInsert
             end
         | None => mret (toInsert ++ [row])%list
         end
     end)
    (fun _ => mret (toInsert ++ [row])%list).

Fixpoint assoc_loop (id : string) (userId : option string) (urls : list string)
    (toInsert : list Photo) : M (list Photo) :=
  match urls with
  | [] => mret toInsert
  | u :: us => acc <- assoc_one id userId u toInsert ;; assoc_loop id userId us acc
  end.

(** The photo-association block of [updateProperty], inside its outer
    [try]/[catch]. *)
Definition assoc_photos (id : string) (updateData : Patch) (userId : option string) : M unit :=
  mcatch
    (match patch_images updateData with
     | Some ((_ :: _) as imgs) =>
         getSupabaseOrThrow ;;;
         toInsert <- assoc_loop id userId imgs [] ;;
         match toInsert with
         | [] => mret tt
         | _ :: _ =>
             r <- store_call OpInsertPhotos ;;
             match r with
             | None => modify_db (insert_rows toInsert)
             | Some FErr => mret tt
             | Some FThrow => mthrow "insert failed"
             end
         end
     | _ => mret tt
     end)
    (fun _ => mret tt).

(** [userId && property.owner_id !== userId] *)
Definition denies (userId : option string) (owner : string) : bool :=
  match userId with
  | Some u => negb (String.eqb u "") && negb (String.eqb owner u)
  | None => false
  end.

Definition updateProperty (id : string) (updateData : Patch) (userId : option string)
  : M Property :=
  property <- repo_findPropertyById id ;;
  match property with
  | None => mthrow "Property not found"
  | Some p =>
      if denies userId (owner_id p)
      then mthrow "Unauthorized: You do not own this property"
      else
        updated <- repo_updateProperty id updateData ;;
        assoc_photos id updateData userId ;;;
        cache_invalidate (detail_key id) ;;;
        cache_invalidate "properties:" ;;;
        invalidateOwnershipCache "property" id ;;;
        mret updated
  end.

Definition deleteProperty (id : string) (userId : option string) : M unit :=
  property <- repo_findPropertyById id ;;
  match property with
  | None => mthrow "Property not found"
  | Some p =>
      if denies userId (owner_id p)
      then mthrow "Unauthorized: You do not own this property"
      else
        repo_deleteProperty id ;;;
        cache_invalidate (detail_key id) ;;;
        cache_invalidate "properties:" ;;;
        invalidateOwnershipCache "property" id
  end.

Definition recordPropertyView (propertyId : string) : M unit :=
  repo_incrementPropertyViews propertyId.

(* ------------------------------------------------------------------ *)
(** ** createProperty *)

(** A value of the request body's [images] array. *)
Inductive JVal := JStr (s : string) | JOther.

Record Body := mkBody {
  body_fields : list (string * string);
  body_images : option (list JVal)
}.

Record Parsed := mkParsed {
  parsed_fields : list (string * string);
  parsed_images : option (list string)
}.

(** Modelled from the spec: the image-URL rules of [insertPropertySchema]
    ([@shared/schema], not in src/; the service relies on it to validate
    images): at most 25 entries, each a string, none beginning with the
    [data:] scheme, each an absolute [http://] or [https://] URL. *)
Definition image_entry_ok (v : JVal) : bool :=
  match v with
  | JStr s => negb (String.prefix "data:" s)
              && (String.prefix "http://" s || String.prefix "https://" s)
  | JOther => false
  end.

Definition image_contract_ok (imgs : list JVal) : bool :=
  Nat.leb (length imgs) 25 && forallb image_entry_ok imgs.

Definition js_strings (imgs : list JVal) : list string :=
  flat_map (fun v => match v with JStr s => [s] | JOther => [] end) imgs.

(** Modelled from the spec: [insertPropertySchema.safeParse(body)]; only
    its image-URL rules are modelled, the other columns pass through. *)
Definition insertPropertySchema_safeParse (b : Body) : string + Parsed :=
  match body_images b with
  | None => inr (mkParsed (body_fields b) None)
  | Some imgs =>
      if image_contract_ok imgs
      then inr (mkParsed (body_fields b) (Some (js_strings imgs)))
      else inl "Invalid image URLs"
  end.

(** Modelled from the spec: the [create_property_with_photos] procedure
    (its live migration is not in src/; the SQL version in
    src/migrations is commented out as deprecated).  It inserts the
    property row from the validated columns and the owner, then one photo
    row per URL tagged [property_creation] and pointing at the new row.
    Each statement may fail, as the oracle says; [None] is an aborted
    procedure. *)
Fixpoint proc_insert_photos (fail : Op -> option Fail) (owner pid : string)
    (urls : list string) (d : DB) : option DB :=
  match urls with
  | [] => Some d
  | u :: us =>
      match fail (OpProcInsertPhoto u) with
      | Some _ => None
      | None =>
          proc_insert_photos fail owner pid us
            (insert_rows [mkPhoto "" u u "property" (Some owner) (Some pid)
                            "property_creation"] d)
      end
  end.

Definition create_property_with_photos (fail : Op -> option Fail)
    (p : list (string * string)) (owner : string) (image_urls : list string) (d : DB)
  : option (Property * DB) :=
  match fail OpProcInsertProperty with
  | Some _ => None
  | None =>
      let new_prop := mkProperty (fresh_id d) owner image_urls p 0 in
      let d1 := mkDB (properties d ++ [new_prop]) (photos d) (N.succ (next_id d)) in
      match proc_insert_photos fail owner (prop_id new_prop) image_urls d1 with
      | None => None
      | Some d2 => Some (new_prop, d2)
      end
  end.

(** [supabaseClient.rpc('create_property_with_photos', ...)]: the procedure
    runs as one transaction, committed whole or rolled back whole; a
    rejected call throws. *)
Definition rpc_create_property_with_photos (p : list (string * string)) (owner : string)
    (image_urls : list string) : M (string + Property) :=
  r <- store_call OpRpcCreate ;;
  match r with
  | Some FThrow => mthrow "RPC request failed"
  | Some FErr => mret (inl "Failed to create property")
  | None =>
      w <- get_world ;;
      match create_property_with_photos (w_fail w) p owner image_urls (w_db w) with
      | None => mret (inl "create_property_with_photos aborted")
      | Some (new_prop, d') => modify_db (fun _ => d') ;;; mret (inr new_prop)
      end
  end.

(** [{ data?, error? }] *)
Inductive CreateResult := CreateError (msg : string) | CreateData (p : Property).

Definition createProperty (body : Body) (userId : string) : M CreateResult :=
  match insertPropertySchema_safeParse body with
  | inl msg => mret (CreateError msg)
  | inr parsed =>
      mcatch
        (getSupabaseOrThrow ;;;
         let image_urls := default [] (parsed_images parsed) in
         r <- rpc_create_property_with_photos (parsed_fields parsed) userId image_urls ;;
         match r with
         | inl err => mret (CreateError err)
         | inr data => cache_invalidate "properties:" ;;; mret (CreateData data)
         end)
        (fun e => mret (CreateError e))
  end.

(* ------------------------------------------------------------------ *)
(** ** The reconcile-photos route handler *)

Inductive HttpResp :=
  | Http200 (reconciled : list (string * string))
  | Http500 (msg : string).

(** The property the sweep's lookup returns for a URL.  The query
    ([contains("images", [url]).limit(1)]) does not fix which matching row
    comes back; the model takes the first in table order. *)
Definition find_prop_with_image (u : string) (d : DB) : option Property :=
  List.find (fun p => existsb (String.eqb u) (images p)) (properties d).

Definition orphans (d : DB) : list Photo :=
  List.filter (fun ph => bool_decide (property_id ph = None)) (photos d).

(** One iteration of [for (const p of orphanPhotos || [])], with its
    [try]/[catch]; only [data] of each response is read. *)
Definition reconcile_one (p : Photo) (reconciled : list (string * string))
  : M (list (string * string)) :=
  mcatch
    (r <- store_call (OpLookupPropertyByImage (url p)) ;;
     match r with
     | Some FThrow => mthrow "lookup failed"
     | Some FErr => mret reconciled
     | None =>
         w <- get_world ;;
         match find_prop_with_image (url p) (w_db w) with
         | None => mret reconciled
         | Some matched =>
             r2 <- store_call (OpUpdatePhoto (photo_id p)) ;;
             match r2 with
             | Some FThrow => mthrow "update failed"
             | Some FErr => mret (reconciled ++ [(photo_id p, prop_id matched)])%list
             | None =>
                 modify_db (set_photo_property (photo_id p) (prop_id matched)) ;;;
                 mret (reconciled ++ [(photo_id p, prop_id matched)])%list
             end
         end
     end)
    (fun _ => mret reconciled).

Fixpoint reconcile_loop (ps : list Photo) (reconciled : list (string * string))
  : M (list (string * string)) :=
  match ps with
  | [] => mret reconciled
  | p :: ps' => acc <- reconcile_one p reconciled ;; reconcile_loop ps' acc
  end.

(** The handler's [try] block and its [catch].  The orphan query's
    [limit(200)] does not fix which rows come back when there are more;
    the model takes the first 200 in table order. *)
Definition reconcile_photos : M HttpResp :=
  mcatch
    (getSupabaseOrThrow ;;;
     r <- store_call OpFetchOrphans ;;
     orphanPhotos <- match r with
                     | Some FThrow => mthrow "fetch failed"
                     | Some FErr => mret []
                     | None => w <- get_world ;; mret (List.firstn 200 (orphans (w_db w)))
                     end ;;
     reconciled <- reconcile_loop orphanPhotos [] ;;
     mret (Http200 reconciled))
    (fun e => mret (Http500 e)).

(* ------------------------------------------------------------------ *)
(** ** [validateImageUrls] *)

(** The argument of [validateImageUrls]: an array of values, or any value
    that is not an array. *)
Inductive JImages := JArray (vs : list JVal) | JNotArray.

(** The [for (const img of images)] loop: the first entry failing a check
    throws that check's message. *)
Fixpoint validate_entries (vs : list JVal) : Outcome unit :=
  match vs with
  | [] => Ret tt
  | JOther :: _ => Throw "Images must be strings (ImageKit URLs)"
  | JStr img :: vs' =>
      if String.prefix "data:" img
      then Throw "Base64 images are not allowed. Upload to ImageKit first."
      else if negb (String.prefix "http://" img) && negb (String.prefix "https://" img)
      then Throw "Images must be valid URLs"
      else validate_entries vs'
  end.

Definition validateImageUrls (images : JImages) : Outcome unit :=
  match images with
  | JNotArray => Ret tt
  | JArray vs =>
      if Nat.ltb 25 (length vs) then Throw "Maximum 25 images per property"
      else validate_entries vs
  end.

(* ------------------------------------------------------------------ *)
(** ** Route handlers of the properties router *)

(** The handlers of src/unnamed/part_001 for a request that its
    middlewares ([authenticateToken], [requireOwnership], [requireRole],
    [viewLimiter], not in src/) let through; [req.user!.id] is an
    argument.  [success(data, message)] and [error(message)] of
    [../../response] (not in src/) are kept as their arguments. *)
Inductive RData := RNull | RValue (v : CVal).

Inductive Payload :=
  | PSuccess (data : RData) (message : string)
  | PError (message : string)
  | PErrorField (error : string).

Record Response := mkResponse {
  res_status : Z;
  res_body : Payload
}.

(** [GET /] *)
Definition route_get_properties (params : GetPropertiesParams) : M Response :=
  mcatch
    (result <- getProperties params ;;
     mret (mkResponse 200 (PSuccess (RValue result) "Properties fetched successfully")))
    (fun _ => mret (mkResponse 500 (PError "Failed to fetch properties"))).

(** [GET /:id] *)
Definition route_get_property (id : string) : M Response :=
  mcatch
    (data <- getPropertyById id ;;
     match data with
     | None => mret (mkResponse 404 (PError "Property not found"))
     | Some v => mret (mkResponse 200 (PSuccess (RValue v) "Property fetched successfully"))
     end)
    (fun _ => mret (mkResponse 500 (PError "Failed to fetch property"))).

(** [POST /]: [if (result.error)] is false on an empty message. *)
Definition route_create_property (body : Body) (userId : string) : M Response :=
  mcatch
    (result <- createProperty body userId ;;
     match result with
     | CreateError e =>
         if String.eqb e ""
         then mret (mkResponse 200 (PSuccess RNull "Property created successfully"))
         else mret (mkResponse 400 (PErrorField e))
     | CreateData d =>
         mret (mkResponse 200 (PSuccess (RValue (CProp d)) "Property created successfully"))
     end)
    (fun _ => mret (mkResponse 500 (PError "Failed to create property"))).

(** [POST /:id/view] *)
Definition route_record_view (id : string) : M Response :=
  mcatch
    (recordPropertyView id ;;;
     mret (mkResponse 200 (PSuccess RNull "View recorded")))
    (fun _ => mret (mkResponse 500 (PError "Failed to record view"))).

(* ================================================================== *)
(** * Properties *)

(** The image URLs a body carries once validated. *)
Definition body_image_urls (b : Body) : list string :=
  match body_images b with
  | Some imgs => js_strings imgs
  | None => []
  end.

(** The state a committed creation leaves: the new row appended, and one
    photo row per URL, in order, pointing at it and tagged
    [property_creation]. *)
Definition creation_committed (d d' : DB) (owner : string) (urls : list string)
    (p : Property) : Prop :=
  properties d' = properties d ++ [p] /\ owner_id p = owner /\
  exists added, photos d' = photos d ++ added /\ map url added = urls /\
    Forall (fun ph => property_id ph = Some (prop_id p) /\ source ph = "property_creation")
      added.

Lemma proc_insert_photos_some fail owner pid urls d d2 :
  proc_insert_photos fail owner pid urls d = Some d2 ->
  properties d2 = properties d /\
  exists added, photos d2 = photos d ++ added /\ map url added = urls /\
    Forall (fun ph => property_id ph = Some pid /\ source ph = "property_creation") added.
Proof.
  revert d. induction urls as [|u us IH]; intros d H; simpl in H.
  - injection H as <-. split; [done|]. exists []. rewrite app_nil_r. done.
  - destruct (fail (OpProcInsertPhoto u)); [discriminate|].
    apply IH in H as [Hp [added [Hph [Hu Hf]]]]. simpl in *.
    split; [done|].
    eexists (_ :: added). rewrite Hph, <-app_assoc. simpl.
    split; [reflexivity|]. split; [by rewrite Hu|]. constructor; [|done]. simpl. done.
Qed.

(** ** C1 *)

(** C1: [createProperty] is all-or-nothing.  Whatever the body, the owner
    and the statements of the atomic procedure that fail, a call that does
    not return created data leaves the store exactly as it was (no
    property row and no photo row from the call); a call that returns
    created data has appended the property row and one photo row per image
    URL, each pointing at the new row and tagged [property_creation]. *)
Theorem createProperty_all_or_nothing (body : Body) (userId : string) (w : World) :
  match createProperty body userId w with
  | (Ret (CreateData p), w') =>
      creation_committed (w_db w) (w_db w') userId (body_image_urls body) p
  | (_, w') => w_db w' = w_db w
  end.
Proof.
  unfold createProperty.
  destruct (insertPropertySchema_safeParse body) as [msg|parsed] eqn:Hparse;
    [reflexivity|].
  assert (Hurls : default [] (parsed_images parsed) = body_image_urls body).
  { unfold insertPropertySchema_safeParse in Hparse. unfold body_image_urls.
    destruct (body_images body) as [imgs|].
    - destruct (image_contract_ok imgs); [|discriminate]. by injection Hparse as <-.
    - by injection Hparse as <-. }
  rewrite Hurls.
  unfold mcatch, mbind, getSupabaseOrThrow, rpc_create_property_with_photos,
    store_call, get_world, mret, mthrow, modify_db, cache_invalidate.
  cbn. destruct (w_fail w OpGetClient) as [f|]; cbn; [reflexivity|].
  destruct (w_fail w OpRpcCreate) as [[|]|]; cbn; [reflexivity|reflexivity|].
  destruct (create_property_with_photos (w_fail w) (parsed_fields parsed) userId
              (body_image_urls body) (w_db w)) as [[np d']|] eqn:Hc; simpl; [|reflexivity].
  unfold create_property_with_photos in Hc.
  destruct (w_fail w OpProcInsertProperty); [discriminate|].
  destruct (proc_insert_photos _ _ _ _ _) as [d2|] eqn:Hp; [|discriminate].
  injection Hc as <- <-.
  apply proc_insert_photos_some in Hp as [Hprops [added [Hph [Hu Hf]]]].
  simpl in *. split; [done|]. split; [done|]. exists added. done.
Qed.

(** ** C2 *)

(** The image-URL contract broken, as the claim lists its cases. *)
Definition image_contract_violated (imgs : list JVal) : Prop :=
  25 < length imgs \/
  Exists (fun v => v = JOther \/
                   exists s, v = JStr s /\
                     (String.prefix "data:" s = true \/
                      (String.prefix "http://" s = false /\ String.prefix "https://" s = false)))
    imgs.

Lemma image_contract_violated_not_ok (imgs : list JVal) :
  image_contract_violated imgs -> image_contract_ok imgs = false.
Proof.
  unfold image_contract_ok. intros [Hlen|Hex].
  - apply andb_false_intro1. apply Nat.leb_gt. lia.
  - apply andb_false_intro2. apply not_true_iff_false. intros Hall.
    rewrite forallb_forall in Hall. apply Exists_exists in Hex as [v [Hin Hv]].
    specialize (Hall v (proj1 (list_elem_of_In _ _) Hin)).
    destruct Hv as [->|[s [-> [Hd|[H1 H2]]]]]; simpl in Hall.
    + discriminate.
    + rewrite Hd in Hall. discriminate.
    + rewrite H1, H2, andb_false_r in Hall. discriminate.
Qed.

(** C2: a body whose image list breaks the image-URL contract (more than
    25 entries, a non-string entry, a [data:] entry, or an entry that is
    not an [http://]/[https://] URL) makes [createProperty] return a
    validation error as a value, with the world untouched: no store call
    is logged and no table or cache entry changes. *)
Theorem createProperty_rejects_invalid_images (body : Body) (userId : string) (w : World)
    (imgs : list JVal) :
  body_images body = Some imgs ->
  image_contract_violated imgs ->
  exists msg, createProperty body userId w = (Ret (CreateError msg), w).
Proof.
  intros Himgs Hbad. apply image_contract_violated_not_ok in Hbad.
  unfold createProperty, insertPropertySchema_safeParse.
  rewrite Himgs, Hbad. eexists. reflexivity.
Qed.

(** The spec's examples of the image rules. *)
Example image_rules_examples :
  image_entry_ok (JStr "data:image/png;base64,AAAA") = false /\
  image_entry_ok (JStr "ftp://x") = false /\
  image_entry_ok (JStr "https://cdn/x.jpg") = true /\
  image_contract_ok (repeat (JStr "https://cdn/x.jpg") 26) = false.
Proof. vm_compute. repeat split. Qed.

(** A store with one property [p1] owned by [o1], showing its image as an
    orphan photo [ph1], and an empty cache. *)
Definition no_failures : Op -> option Fail := fun _ => None.

Definition demo_db : DB :=
  mkDB [mkProperty "p1" "o1" ["https://cdn/3.jpg"] [("city", "A")] 0]
       [mkPhoto "ph1" "https://cdn/3.jpg" "https://cdn/3.jpg" "property" None None "upload"]
       10%N.

Definition demo_world (fail : Op -> option Fail) : World :=
  mkWorld demo_db ∅ [] 0 fail 60 300.

Lemma createProperty_rejects_invalid_images_witness :
  exists msg,
    createProperty (mkBody [("title", "T")] (Some [JStr "data:image/png;base64,AAAA"]))
      "user_abc" (demo_world no_failures)
    = (Ret (CreateError msg), demo_world no_failures).
Proof.
  apply (createProperty_rejects_invalid_images _ _ _ [JStr "data:image/png;base64,AAAA"]).
  - reflexivity.
  - right. constructor. right. exists "data:image/png;base64,AAAA". split; [reflexivity|].
    left. reflexivity.
Defined.

(** ** C3 *)

(** C3, as stated, fails: an empty [requesterId] is supplied and differs
    from the owner [o1], yet [userId && ...] treats it as absent, so the
    store's update path runs and the caches are invalidated. *)
Lemma updateProperty_empty_requester_mutates :
  let '(o, w') := updateProperty "p1" (mkPatch [("title", "X")] None) (Some "")
                    (demo_world no_failures) in
  (exists p, o = Ret p) /\
  In (EStore (OpUpdateProperty "p1")) (w_log w') /\
  In (ECacheInval "property:p1") (w_log w').
Proof.
  vm_compute. split; [eexists; reflexivity|]. split.
  - right. left. reflexivity.
  - right. right. left. reflexivity.
Qed.

(** C3 (amended): when the property is present and a non-empty requester
    id differing from its owner is supplied, [updateProperty] and
    [deleteProperty] throw the Unauthorized fault after the ownership read
    alone: the world afterwards differs from the one before only by that
    logged read (no update or delete call, no cache or ownership-cache
    invalidation, no table change). *)
Theorem update_delete_unauthorized_no_mutation (id : string) (pa : Patch) (u : string)
    (w : World) (p : Property) :
  w_fail w (OpFindProperty id) = None ->
  find_prop id (properties (w_db w)) = Some p ->
  u <> "" -> owner_id p <> u ->
  updateProperty id pa (Some u) w
    = (Throw "Unauthorized: You do not own this property",
       log_event w (EStore (OpFindProperty id))) /\
  deleteProperty id (Some u) w
    = (Throw "Unauthorized: You do not own this property",
       log_event w (EStore (OpFindProperty id))).
Proof.
  intros Hread Hfind Hne Hown.
  assert (H1 : String.eqb u "" = false) by (apply String.eqb_neq; done).
  assert (H2 : String.eqb (owner_id p) u = false) by (apply String.eqb_neq; done).
  unfold updateProperty, deleteProperty, repo_findPropertyById, mbind, store_call,
    get_world, mret, mthrow.
  cbn. rewrite Hread. cbn. rewrite Hfind. cbn. rewrite H1, H2. split; reflexivity.
Qed.

Lemma update_delete_unauthorized_no_mutation_witness :
  updateProperty "p1" (mkPatch [] None) (Some "intruder") (demo_world no_failures)
    = (Throw "Unauthorized: You do not own this property",
       log_event (demo_world no_failures) (EStore (OpFindProperty "p1"))) /\
  deleteProperty "p1" (Some "intruder") (demo_world no_failures)
    = (Throw "Unauthorized: You do not own this property",
       log_event (demo_world no_failures) (EStore (OpFindProperty "p1"))).
Proof.
  apply (update_delete_unauthorized_no_mutation "p1" _ "intruder" _
           (mkProperty "p1" "o1" ["https://cdn/3.jpg"] [("city", "A")] 0));
    [reflexivity | reflexivity | discriminate | discriminate].
Defined.

(** ** [String] on numbers *)

Lemma digit_val_char (d : Z) : (0 <= d < 10)%Z -> digit_val (digit_char d) = Some d.
Proof.
  intros Hd.
  assert (d = 0 \/ d = 1 \/ d = 2 \/ d = 3 \/ d = 4 \/ d = 5 \/ d = 6 \/ d = 7 \/ d = 8 \/ d = 9)%Z
    as Hc by lia.
  repeat destruct Hc as [->|Hc]; [reflexivity..|subst; reflexivity].
Qed.

Lemma read_digits_app (acc v : Z) (n k : nat) (t : string) :
  read_digits acc n (digits_of v k +:+ t)
  = read_digits (acc * 10 ^ Z.of_nat k + v mod 10 ^ Z.of_nat k)%Z (n + k) t.
Proof.
  revert acc n. induction k as [|k IH]; intros acc n.
  - simpl. rewrite Nat.add_0_r. f_equal. rewrite Z.mod_1_r. lia.
  - simpl. rewrite digit_val_char by (apply Z.mod_pos_bound; lia).
    rewrite IH. f_equal; [|lia].
    rewrite Nat2Z.inj_succ, Z.pow_succ_r by lia.
    rewrite (Z.mul_comm 10 (10 ^ Z.of_nat k)), Z.rem_mul_r by lia. ring.
Qed.

Lemma app_assoc_str (a b c : string) : (a +:+ b) +:+ c = a +:+ (b +:+ c).
Proof. induction a as [|x a IH]; [reflexivity|exact (f_equal (String x) IH)]. Qed.

Lemma app_nil_str (a : string) : a +:+ "" = a.
Proof. induction a as [|x a IH]; [reflexivity|exact (f_equal (String x) IH)]. Qed.

Lemma Q10_plus (x y : Z) : Q10 (x + y) == Q10 x * Q10 y.
Proof. unfold Q10. apply Qpower_plus. discriminate. Qed.

Lemma Q10_of_Z (j : Z) : (0 <= j)%Z -> inject_Z (10 ^ j) == Q10 j.
Proof. intros Hj. unfold Q10. by apply Zpower_Qpower. Qed.

Lemma Q10_neq0 (j : Z) : ~ Q10 j == 0.
Proof. unfold Q10. apply Qpower_not_0. discriminate. Qed.

Lemma Q10_0 : Q10 0 == 1.
Proof. reflexivity. Qed.

Lemma div_mod_Q (s P : Z) : (0 < P)%Z ->
  inject_Z (s / P) + inject_Z (s mod P) / inject_Z P == inject_Z s / inject_Z P.
Proof.
  intros HP. rewrite (Z.div_mod s P) at 3 by lia.
  rewrite inject_Z_plus, inject_Z_mult. field.
  intros H. unfold Qeq in H. simpl in H. lia.
Qed.

Lemma digits10_spec (v : Z) (fuel : nat) :
  (0 <= v < 2 ^ Z.of_nat fuel)%Z -> (v < 10 ^ Z.of_nat (digits10 v fuel))%Z.
Proof.
  revert v. induction fuel as [|f IH]; intros v Hv; simpl.
  - simpl in Hv. lia.
  - destruct (Z.ltb_spec v 10); [simpl; lia|].
    assert (Hd : (v / 10 < 10 ^ Z.of_nat (digits10 (v / 10) f))%Z).
    { apply IH. split; [apply Z.div_pos; lia|].
      rewrite Nat2Z.inj_succ, Z.pow_succ_r in Hv by lia.
      apply Z.div_lt_upper_bound; lia. }
    rewrite Nat2Z.inj_succ, Z.pow_succ_r by lia.
    pose proof (Z.div_mod v 10) as Hm. pose proof (Z.mod_pos_bound v 10) as Hb. lia.
Qed.

Lemma digits10_ge1 (v : Z) (fuel : nat) : (1 <= fuel)%nat -> (1 <= digits10 v fuel)%nat.
Proof. destruct fuel; [lia|]. simpl. destruct (v <? 10)%Z; lia. Qed.

Lemma size_nat_bound (p : positive) : (Zpos p < 2 ^ Z.of_nat (Pos.size_nat p))%Z.
Proof.
  induction p as [p IH|p IH|]; simpl Pos.size_nat; rewrite ?Nat2Z.inj_succ, ?Z.pow_succ_r by lia;
    try lia; rewrite ?Pos2Z.inj_xI, ?Pos2Z.inj_xO; lia.
Qed.

Lemma num_digits_spec (v : Z) : (0 <= v)%Z ->
  (1 <= num_digits v)%nat /\ (v < 10 ^ Z.of_nat (num_digits v))%Z.
Proof.
  intros Hv. unfold num_digits. split.
  - apply digits10_ge1. destruct (Z.to_pos v); simpl; lia.
  - apply digits10_spec. split; [lia|].
    destruct v as [|p|p]; [simpl; lia| |lia]. apply size_nat_bound.
Qed.

Lemma read_digits_stop (acc : Z) (n : nat) (c : ascii) (t : string) :
  digit_val c = None -> read_digits acc n (String c t) = (acc, n, String c t).
Proof. intros H. simpl. by rewrite H. Qed.

Lemma read_exponent_ok (A : Z) (sg : ascii) :
  (0 <= A)%Z ->
  read_exponent (String "e" (String sg (digits_of A (num_digits A))))
  = if Ascii.eqb sg "+" then Some A else if Ascii.eqb sg "-" then Some (- A)%Z else None.
Proof.
  intros HA. destruct (num_digits_spec A HA) as [H1 H2].
  unfold read_exponent. rewrite (Ascii.eqb_refl "e"). 
  rewrite <- (app_nil_str (digits_of A _)), read_digits_app. simpl.
  destruct (num_digits A) as [|nd]; [lia|]. simpl.
  rewrite Z.mod_small by lia. reflexivity.
Qed.

Lemma app_cons_str (c : ascii) (a b : string) : String c a +:+ b = String c (a +:+ b).
Proof. reflexivity. Qed.

Lemma app_nil_l_str (b : string) : "" +:+ b = b.
Proof. reflexivity. Qed.

Lemma Q10_neg (j : Z) : (0 <= j)%Z -> Q10 (- j) == / inject_Z (10 ^ j).
Proof. intros Hj. unfold Q10. rewrite Qpower_opp, <- Zpower_Qpower by lia. reflexivity. Qed.

Lemma read_digits_digit (acc : Z) (n : nat) (c : ascii) (t : string) (d : Z) :
  digit_val c = Some d -> read_digits acc n (String c t) = read_digits (10 * acc + d)%Z (S n) t.
Proof. intros H. simpl. by rewrite H. Qed.

Lemma format_decimal_value (s n : Z) (k : nat) :
  (1 <= k)%nat -> (0 <= s < 10 ^ Z.of_nat k)%Z ->
  exists V, decimal_value (format_decimal s n k) = Some V /\
            V == inject_Z s * Q10 (n - Z.of_nat k).
Proof.
  intros Hk Hs. unfold format_decimal.
  destruct ((Z.of_nat k <=? n) && (n <=? 21))%Z eqn:Ha.
  - apply andb_prop in Ha as [Ha _]. apply Z.leb_le in Ha.
    unfold decimal_value.
    rewrite <- (app_nil_str (digits_of 0 _)), read_digits_app, read_digits_app.
    cbn [read_digits].
    replace (0 + k + Z.to_nat (n - Z.of_nat k) =? 0)%nat with false by (symmetry; apply Nat.eqb_neq; lia).
    eexists; split; [reflexivity|].
    rewrite Z2Nat.id by lia. rewrite Z.mod_0_l, Z.add_0_r by (apply Z.pow_nonzero; lia).
    rewrite Z.mul_0_l, Z.add_0_l, Z.mod_small by lia.
    rewrite inject_Z_mult, Q10_of_Z by lia. reflexivity.
  - destruct ((0 <? n) && (n <=? 21))%Z eqn:Hb.
    { apply andb_prop in Hb as [Hb1 Hb2]. apply Z.ltb_lt in Hb1. apply Z.leb_le in Hb2.
      assert (Hnk : (n < Z.of_nat k)%Z).
      { destruct (Z.ltb_spec n (Z.of_nat k)); [done|].
        apply Z.leb_le in Hb2. rewrite Hb2 in Ha. apply Z.leb_le in H. rewrite H in Ha. discriminate. }
      unfold decimal_value.
      rewrite <- (app_nil_str (digits_of s _)), read_digits_app, app_cons_str, app_nil_l_str.
      rewrite read_digits_stop by reflexivity.
      replace (0 + Z.to_nat n =? 0)%nat with false by (symmetry; apply Nat.eqb_neq; lia).
      cbn iota beta zeta. rewrite (Ascii.eqb_refl ".").
      rewrite read_digits_app. cbn [read_digits read_exponent].
      eexists; split; [reflexivity|].
      rewrite Nat.add_0_l, !Z2Nat.id by lia. rewrite Z.mul_0_l, !Z.add_0_l.
      rewrite (Z.mod_small (s `div` _)).
      2:{ split; [apply Z.div_pos; lia|]. apply Z.div_lt_upper_bound; [apply Z.pow_pos_nonneg; lia|].
          rewrite <- Z.pow_add_r by lia. replace (Z.of_nat k - n + n)%Z with (Z.of_nat k) by lia. lia. }
      rewrite div_mod_Q by (apply Z.pow_pos_nonneg; lia).
      replace (n - Z.of_nat k)%Z with (- (Z.of_nat k - n))%Z by lia.
      rewrite Q10_neg, Q10_0 by lia. unfold Qdiv. ring. }
    destruct ((-6 <? n) && (n <=? 0))%Z eqn:Hc.
    { apply andb_prop in Hc as [Hc1 Hc2]. apply Z.ltb_lt in Hc1. apply Z.leb_le in Hc2.
      unfold decimal_value. rewrite !app_cons_str, app_nil_l_str.
      rewrite (read_digits_digit _ _ "0" _ 0%Z), read_digits_stop by reflexivity.
      cbn iota beta zeta. cbn [Nat.eqb]. rewrite (Ascii.eqb_refl ".").
      rewrite <- (app_nil_str (digits_of s _)), read_digits_app, read_digits_app.
      cbn [read_digits read_exponent].
      eexists; split; [reflexivity|].
      rewrite Z.mod_0_l by (apply Z.pow_nonzero; lia).
      replace ((0 * 10 ^ Z.of_nat (Z.to_nat (- n)) + 0) * 10 ^ Z.of_nat k + s `mod` 10 ^ Z.of_nat k)%Z
        with s by (rewrite Z.mod_small by lia; lia).
      replace (10 * 0 + 0)%Z with 0%Z by reflexivity.
      rewrite Nat.add_0_l, Nat2Z.inj_add, Z2Nat.id by lia.
      replace (n - Z.of_nat k)%Z with (- (- n + Z.of_nat k))%Z by lia.
      rewrite Q10_neg, Q10_0 by lia. unfold Qdiv. ring. }
    set (ex := ((if (0 <? n - 1)%Z then "e+" else "e-") +:+
                  digits_of (Z.abs (n - 1)) (num_digits (Z.abs (n - 1))))).
    assert (Hstr : ex = String "e" (String (if (0 <? n - 1)%Z then "+" else "-")
                     (digits_of (Z.abs (n - 1)) (num_digits (Z.abs (n - 1)))))).
    { unfold ex. destruct (0 <? n - 1)%Z; reflexivity. }
    assert (Hre : read_exponent ex = Some (n - 1)%Z).
    { rewrite Hstr. destruct (Z.ltb_spec 0 (n - 1));
        rewrite read_exponent_ok by lia; cbn; f_equal; lia. }
    clearbody ex.
    destruct (k =? 1)%nat eqn:Hk1.
    { apply Nat.eqb_eq in Hk1. subst k.
      unfold decimal_value. rewrite read_digits_app, Hstr, read_digits_stop by reflexivity.
      cbn iota beta zeta. cbn [Nat.eqb Nat.add Ascii.eqb Bool.eqb andb].
      rewrite <- Hstr, Hre.
      eexists; split; [reflexivity|].
      rewrite Z.mul_0_l, Z.add_0_l, Z.mod_small by (simpl in Hs |- *; lia).
      reflexivity. }
    { apply Nat.eqb_neq in Hk1.
      unfold decimal_value. rewrite read_digits_app, app_cons_str, app_nil_l_str,
        read_digits_stop by reflexivity.
      cbn iota beta zeta. cbn [Nat.eqb Nat.add]. rewrite (Ascii.eqb_refl ".").
      rewrite read_digits_app, Hstr, read_digits_stop by reflexivity.
      cbn iota beta zeta. rewrite <- Hstr, Hre.
      eexists; split; [reflexivity|].
      rewrite !Z.mul_0_l, !Z.add_0_l, Nat.add_0_l.
      replace (Z.of_nat (k - 1)) with (Z.of_nat k - 1)%Z by lia.
      rewrite (Z.mod_small (s `div` _)).
      2:{ split; [apply Z.div_pos; lia|]. apply Z.div_lt_upper_bound; [apply Z.pow_pos_nonneg; lia|].
          assert (E : (10 ^ Z.of_nat k = 10 ^ (Z.of_nat k - 1) * 10)%Z)
            by (rewrite Z.mul_comm, <- Z.pow_succ_r by lia; f_equal; lia). lia. }
      rewrite div_mod_Q by (apply Z.pow_pos_nonneg; lia).
      replace (n - Z.of_nat k)%Z with (- (Z.of_nat k - 1) + (n - 1))%Z by lia.
      rewrite Q10_plus, Q10_neg by lia. unfold Qdiv. ring. }
Qed.

Lemma Zdigits2_pos (p : positive) : Zdigits2 (Zpos p) = (Z.log2 (Zpos p) + 1)%Z.
Proof.
  simpl. assert (H : digits2_pos p = Pos.size p).
  { induction p as [p IH|p IH|]; simpl; rewrite ?IH; reflexivity. }
  rewrite H. destruct p; simpl; lia.
Qed.

Lemma Zdigits2_mul_pow2 (z k : Z) : (0 < z)%Z -> (0 <= k)%Z ->
  Zdigits2 (z * 2 ^ k) = (Zdigits2 z + k)%Z.
Proof.
  intros Hz Hk. destruct z as [|p|p]; try lia.
  assert (Hpos : (0 < Zpos p * 2 ^ k)%Z) by (apply Z.mul_pos_pos; [lia|apply Z.pow_pos_nonneg; lia]).
  destruct (Zpos p * 2 ^ k)%Z as [|q|q] eqn:Hq; try lia.
  rewrite !Zdigits2_pos, <- Hq, Z.log2_mul_pow2 by lia. lia.
Qed.

Lemma iter_pos_xI {A} (f : A -> A) (n : positive) (x : A) :
  SpecFloat.iter_pos f n~1 x = SpecFloat.iter_pos f n (SpecFloat.iter_pos f n (f x)).
Proof. reflexivity. Qed.

Lemma iter_pos_xO {A} (f : A -> A) (n : positive) (x : A) :
  SpecFloat.iter_pos f n~0 x = SpecFloat.iter_pos f n (SpecFloat.iter_pos f n x).
Proof. reflexivity. Qed.

Lemma iter_pos_xH {A} (f : A -> A) (x : A) : SpecFloat.iter_pos f 1 x = f x.
Proof. reflexivity. Qed.

Lemma iter_shr_1 (n p : positive) :
  SpecFloat.iter_pos shr_1 n {| shr_m := Zpos p * 2 ^ Zpos n; shr_r := false; shr_s := false |}
  = {| shr_m := Zpos p; shr_r := false; shr_s := false |}.
Proof.
  revert p. induction n as [n IH|n IH|]; intros p.
  all: rewrite ?iter_pos_xI, ?iter_pos_xO, ?iter_pos_xH.
  - assert (E : (2 ^ Zpos n~1 = 2 * (2 ^ Zpos n * 2 ^ Zpos n))%Z).
    { rewrite Pos2Z.inj_xI, <- Z.pow_add_r, <- Z.pow_succ_r by lia. f_equal. lia. }
    assert (E1 : shr_1 {| shr_m := Zpos p * 2 ^ Zpos n~1; shr_r := false; shr_s := false |}
               = {| shr_m := Zpos (p * 2 ^ n) * 2 ^ Zpos n; shr_r := false; shr_s := false |}).
    { replace (Zpos p * 2 ^ Zpos n~1)%Z with (Zpos (xO (p * 2 ^ n * 2 ^ n))).
      2:{ rewrite E, Pos2Z.inj_xO, !Pos2Z.inj_mul, !Pos2Z.inj_pow. ring. }
      simpl. f_equal. rewrite !Pos2Z.inj_mul, !Pos2Z.inj_pow. reflexivity. }
    rewrite E1, IH. replace (Zpos (p * 2 ^ n)) with (Zpos p * 2 ^ Zpos n)%Z
      by (rewrite Pos2Z.inj_mul, Pos2Z.inj_pow; reflexivity).
    apply IH.
  - assert (E : (2 ^ Zpos n~0 = 2 ^ Zpos n * 2 ^ Zpos n)%Z).
    { rewrite Pos2Z.inj_xO, <- Z.pow_add_r by lia. f_equal. lia. }
    replace (Zpos p * 2 ^ Zpos n~0)%Z with (Zpos (p * 2 ^ n) * 2 ^ Zpos n)%Z.
    2:{ rewrite E, Pos2Z.inj_mul, Pos2Z.inj_pow. ring. }
    rewrite IH. replace (Zpos (p * 2 ^ n)) with (Zpos p * 2 ^ Zpos n)%Z
      by (rewrite Pos2Z.inj_mul, Pos2Z.inj_pow; reflexivity).
    apply IH.
  - replace (Zpos p * 2 ^ 1)%Z with (Zpos (xO p)) by lia. reflexivity.
Qed.

Lemma new_location_0 (nb : Z) : new_location nb 0 = loc_Exact.
Proof. unfold new_location. destruct (Z.even nb); reflexivity. Qed.

Lemma fexp_mono (x y : Z) : (x <= y)%Z -> (fexp 53 1024 x <= fexp 53 1024 y)%Z.
Proof. unfold fexp. lia. Qed.

Lemma round_core_exact (p m : positive) (j A B e : Z) :
  (0 <= j)%Z -> (0 <= A)%Z -> (0 <= B)%Z ->
  (Zpos p * 2 ^ A = Zpos m * 2 ^ B)%Z -> (B - A = j + e)%Z ->
  bounded 53 1024 m e = true ->
  (let '(mz, ez, lz) := SFdiv_core_binary 53 1024 (Zpos p) 0 (2 ^ j) 0 in
   binary_round_aux 53 1024 false mz ez lz) = S754_finite false m e.
Proof.
  intros Hj HA HB Hpm Hd Hb.
  unfold bounded, canonical_mantissa in Hb. apply andb_prop in Hb as [Hc He].
  apply Z.eqb_eq in Hc. apply Z.leb_le in He.
  change (Zpos (digits2_pos m)) with (Zdigits2 (Zpos m)) in Hc.
  assert (Hdp : Zdigits2 (Zpos p) = (Zdigits2 (Zpos m) + j + e)%Z).
  { pose proof (Zdigits2_mul_pow2 (Zpos p) A) as H1. pose proof (Zdigits2_mul_pow2 (Zpos m) B) as H2.
    rewrite Hpm in H1. lia. }
  assert (Hd2 : Zdigits2 (2 ^ j) = (j + 1)%Z).
  { replace (2 ^ j)%Z with (1 * 2 ^ j)%Z by lia. rewrite Zdigits2_mul_pow2 by lia. simpl. lia. }
  set (e' := Z.min (fexp 53 1024 (Zdigits2 (Zpos m) + e - 1)) 0).
  assert (He' : (e' <= e)%Z).
  { unfold e'. pose proof (fexp_mono (Zdigits2 (Zpos m) + e - 1) (Zdigits2 (Zpos m) + e)). lia. }
  assert (He'0 : (e' <= 0)%Z) by (unfold e'; lia).
  assert (Hm' : (Z.shiftl (Zpos p) (- e') = (Zpos m * 2 ^ (e - e')) * 2 ^ j)%Z).
  { rewrite Z.shiftl_mul_pow2 by lia.
    apply (Z.mul_cancel_r _ _ (2 ^ A)); [apply Z.pow_nonzero; lia|].
    rewrite <- Z.mul_assoc, (Z.mul_comm (2 ^ (- e'))), Z.mul_assoc, Hpm.
    rewrite <- !Z.mul_assoc, <- !Z.pow_add_r by lia. f_equal. f_equal. lia. }
  unfold SFdiv_core_binary.
  replace (Z.min (fexp 53 1024 (Zdigits2 (Zpos p) + 0 - (Zdigits2 (2 ^ j) + 0))) (0 - 0))%Z with e'
    by (unfold e'; rewrite Hdp, Hd2; f_equal; f_equal; lia).
  replace (0 - 0 - e')%Z with (- e')%Z by lia.
  assert (Hsh : match (- e')%Z with 0%Z => Zpos p | Zpos _ => Z.shiftl (Zpos p) (- e')
                 | Zneg _ => 0%Z end = (Zpos m * 2 ^ (e - e') * 2 ^ j)%Z).
  { rewrite <- Hm'. destruct (- e')%Z eqn:E; [reflexivity|reflexivity|lia]. }
  rewrite Hsh.
  assert (Hdiv : Z.div_eucl (Zpos m * 2 ^ (e - e') * 2 ^ j) (2 ^ j)
                 = (Zpos m * 2 ^ (e - e'), 0)%Z).
  { assert (Hq : ((Zpos m * 2 ^ (e - e') * 2 ^ j) / 2 ^ j = Zpos m * 2 ^ (e - e'))%Z)
      by (apply Z.div_mul; apply Z.pow_nonzero; lia).
    assert (Hr : ((Zpos m * 2 ^ (e - e') * 2 ^ j) mod 2 ^ j = 0)%Z)
      by (apply Z.mod_mul; apply Z.pow_nonzero; lia).
    unfold Z.div, Z.modulo in Hq, Hr.
    destruct (Z.div_eucl (Zpos m * 2 ^ (e - e') * 2 ^ j) (2 ^ j)). subst. reflexivity. }
  rewrite Hdiv. cbv zeta. rewrite new_location_0.
  unfold binary_round_aux, shr_fexp.
  rewrite Zdigits2_mul_pow2 by lia.
  replace (Zdigits2 (Zpos m) + (e - e') + e')%Z with (Zdigits2 (Zpos m) + e)%Z by lia.
  unfold fexp at 1. unfold fexp in Hc. rewrite Hc.
  assert (Hshr : shr (shr_record_of_loc (Zpos m * 2 ^ (e - e')) loc_Exact) e' (e - e')
                 = ({| shr_m := Zpos m; shr_r := false; shr_s := false |}, e)).
  { unfold shr, shr_record_of_loc. destruct (e - e')%Z as [|t|t] eqn:Et; try lia.
    - replace e' with e by lia. rewrite Z.mul_1_r. reflexivity.
    - rewrite iter_shr_1. f_equal. lia. }
  rewrite Hshr. cbn [shr_m loc_of_shr_record round_nearest_even].
  replace (fexp 53 1024 (Zdigits2 (Zpos m) + e) - e)%Z with 0%Z by (unfold fexp; lia).
  cbn [shr shr_record_of_loc shr_m]. apply Z.leb_le in He. rewrite He. reflexivity.
Qed.

Lemma js_of_Q_exact (m : positive) (e : Z) (V : Q) :
  bounded 53 1024 m e = true ->
  V == inject_Z (Zpos m) * Qpower (inject_Z 2) e ->
  js_of_Q V = S754_finite false m e.
Proof.
  intros Hb HV. unfold js_of_Q.
  pose proof (gcd_Qred V) as Hg. pose proof (Qred_correct V) as HR.
  destruct (Qred V) as [num den]. cbn [Qnum Qden] in *.
  rewrite HV, Qmake_Qdiv in HR. clear HV.
  destruct (Z.leb_spec 0 e) as [He|He].
  - rewrite <- Zpower_Qpower in HR by lia. rewrite <- inject_Z_mult in HR.
    assert (Hz : inject_Z num == inject_Z (Zpos m * 2 ^ e * Zpos den)).
    { rewrite inject_Z_mult, <- HR. field. unfold Qeq; simpl; lia. }
    apply (proj1 (inject_Z_injective _ _)) in Hz.
    assert (Hd : den = 1%positive).
    { assert (Hdiv : (Zpos den | Z.gcd num (Zpos den))%Z).
      { apply Z.gcd_greatest; [exists (Zpos m * 2 ^ e)%Z; rewrite Hz; ring|apply Z.divide_refl]. }
      rewrite Hg in Hdiv. apply Z.divide_1_r in Hdiv. lia. }
    subst den. rewrite Z.mul_1_r in Hz.
    assert (Hpos : (0 < num)%Z) by (subst; apply Z.mul_pos_pos; [lia|apply Z.pow_pos_nonneg; lia]).
    destruct num as [|p|p]; try lia.
    change (Zpos 1) with (2 ^ 0)%Z.
    apply (round_core_exact p m 0 0 e e); try lia. exact Hb.
  - assert (HQ : Qpower (inject_Z 2) e == / inject_Z (2 ^ (- e))).
    { rewrite Zpower_Qpower by lia. rewrite <- Qpower_opp. rewrite Z.opp_involutive. reflexivity. }
    rewrite HQ in HR.
    assert (Hz : inject_Z (num * 2 ^ (- e)) == inject_Z (Zpos m * Zpos den)).
    { rewrite !inject_Z_mult.
      assert (Hd0 : ~ inject_Z (Zpos den) == 0) by (unfold Qeq; simpl; lia).
      assert (HP0 : ~ inject_Z (2 ^ (- e)) == 0).
      { unfold Qeq; simpl. rewrite Z.mul_1_r. apply Z.pow_nonzero; lia. }
      assert (E : inject_Z num == inject_Z num / inject_Z (Zpos den) * inject_Z (Zpos den))
        by (field; exact Hd0).
      rewrite E, HR. field. exact HP0. }
    apply (proj1 (inject_Z_injective _ _)) in Hz.
    assert (Hdiv : (Zpos den | 2 ^ (- e))%Z).
    { apply (Z.gauss _ num). { exists (Zpos m). lia. } rewrite Z.gcd_comm. exact Hg. }
    destruct (Zdivide_power_2 (Zpos den) 2 (- e)) as [j Hj]; try lia; [apply prime_alt, Z.prime_2|exact Hdiv|].
    assert (Hj0 : (0 <= j)%Z).
    { destruct (Z.leb_spec 0 j); [lia|]. rewrite Z.pow_neg_r in Hj by lia. lia. }
    assert (Hpos : (0 < num)%Z).
    { assert (0 < num * 2 ^ (- e))%Z by (rewrite Hz; lia).
      assert (0 < 2 ^ (- e))%Z by (apply Z.pow_pos_nonneg; lia). nia. }
    destruct num as [|p|p]; try lia.
    rewrite Hj. rewrite Hj in Hz.
    apply (round_core_exact p m j (- e) j e); try lia. exact Hb.
Qed.

Lemma js_of_Q_compat (V W : Q) : V == W -> js_of_Q V = js_of_Q W.
Proof. intros H. unfold js_of_Q. by rewrite (Qred_complete V W H). Qed.

Lemma sf_eqb_true (x y : JNum) : sf_eqb x y = true -> x = y.
Proof.
  destruct x, y; simpl; try discriminate; intros H;
  repeat match goal with H : _ && _ = true |- _ => apply andb_prop in H as [? ?] end;
  repeat match goal with
  | H : Bool.eqb _ _ = true |- _ => apply eqb_prop in H; subst
  | H : Pos.eqb _ _ = true |- _ => apply Pos.eqb_eq in H; subst
  | H : Z.eqb _ _ = true |- _ => apply Z.eqb_eq in H; subst
  end; reflexivity.
Qed.

(** A digit string [s] of [k] digits with decimal exponent [n] denoting [x]. *)
Definition digits_denote (x : JNum) (r : Z * Z * nat) : Prop :=
  let '(s, n, k) := r in
  (1 <= k)%nat /\ (0 <= s < 10 ^ Z.of_nat k)%Z /\
  js_of_Q (inject_Z s * Q10 (n - Z.of_nat k)) = x.

Lemma candidate_sound (x : JNum) (s n : Z) (k : nat) (r : Z * Z * nat) :
  (1 <= k)%nat -> candidate x s n k = Some r -> digits_denote x r.
Proof.
  intros Hk. unfold candidate.
  destruct ((10 ^ (Z.of_nat k - 1) <=? s) && (s <? 10 ^ Z.of_nat k))%Z eqn:H1; [|discriminate].
  destruct (sf_eqb _ x) eqn:H2; [|discriminate]. intros [= <-].
  apply andb_prop in H1 as [Ha Hb]. apply Z.leb_le in Ha. apply Z.ltb_lt in Hb.
  apply sf_eqb_true in H2. split; [exact Hk|]. split; [|exact H2].
  assert (0 < 10 ^ (Z.of_nat k - 1))%Z by (apply Z.pow_pos_nonneg; lia). lia.
Qed.

Lemma closer_cases (v : Q) (a b : Z * Z * nat) : closer v a b = a \/ closer v a b = b.
Proof.
  destruct a as [[sa na] k], b as [[sb nb] k']. unfold closer.
  destruct (Qcompare _ _); [destruct (Z.even sa)|..]; auto.
Qed.

Lemma best_candidate_sound (x : JNum) (v : Q) (k : nat) (r : Z * Z * nat) :
  (1 <= k)%nat -> best_candidate x v k = Some r -> digits_denote x r.
Proof.
  intros Hk. unfold best_candidate. cbv zeta.
  assert (Hc : forall s n r', candidate x s n k = Some r' -> digits_denote x r')
    by (intros s n r'; apply candidate_sound; exact Hk).
  match goal with |- match _ with Some _ => match ?c with _ => _ end | None => _ end = _ -> _ =>
    set (c2 := c) end.
  assert (H2 : forall r', c2 = Some r' -> digits_denote x r')
    by (subst c2; destruct (_ =? _)%Z; apply Hc).
  clearbody c2.
  destruct (candidate x _ _ k) as [a|] eqn:E1; [destruct c2 as [b|]|]; intros H.
  - injection H as <-. destruct (closer_cases v a b) as [-> | ->]; eauto.
  - injection H as <-. eauto.
  - eauto.
Qed.

Lemma shortest_from_sound (x : JNum) (v : Q) (fuel : nat) :
  forall k r, (1 <= k)%nat -> shortest_from x v k fuel = Some r -> digits_denote x r.
Proof.
  induction fuel as [|f IH]; intros k r Hk; simpl; [discriminate|].
  destruct (best_candidate x v k) as [r'|] eqn:E.
  - intros [= <-]. eapply best_candidate_sound; eauto.
  - apply IH. lia.
Qed.

Lemma exact_decimal_value (m : positive) (e : Z) :
  let '(s, j) := exact_decimal m e in
  (0 <= s)%Z /\ inject_Z s * Q10 j == inject_Z (Zpos m) * Qpower (inject_Z 2) e.
Proof.
  unfold exact_decimal. destruct (Z.leb_spec 0 e) as [He|He].
  - split; [apply Z.mul_nonneg_nonneg; [lia|apply Z.pow_nonneg; lia]|].
    rewrite Q10_0, Qmult_1_r, inject_Z_mult, Zpower_Qpower by lia. reflexivity.
  - split; [apply Z.mul_nonneg_nonneg; [lia|apply Z.pow_nonneg; lia]|].
    assert (H10 : Q10 e == / inject_Z (10 ^ (- e))).
    { rewrite <- Q10_neg by lia. rewrite Z.opp_involutive. reflexivity. }
    rewrite H10.
    assert (HQ : Qpower (inject_Z 2) e == / inject_Z (2 ^ (- e))).
    { rewrite Zpower_Qpower by lia. rewrite <- Qpower_opp. rewrite Z.opp_involutive. reflexivity. }
    rewrite HQ. replace (10 ^ (- e))%Z with (2 ^ (- e) * 5 ^ (- e))%Z
      by (rewrite <- Z.pow_mul_l; reflexivity).
    rewrite !inject_Z_mult. field.
    assert (0 < 2 ^ (- e))%Z by (apply Z.pow_pos_nonneg; lia).
    assert (0 < 5 ^ (- e))%Z by (apply Z.pow_pos_nonneg; lia).
    split; unfold Qeq; simpl; lia.
Qed.

Lemma positive_to_string_value (m : positive) (e : Z) :
  bounded 53 1024 m e = true ->
  exists V, decimal_value (positive_to_string m e) = Some V /\
            js_of_Q V = S754_finite false m e.
Proof.
  intros Hb. unfold positive_to_string.
  destruct (shortest_from _ _ 1 17) as [[[s n] k]|] eqn:E.
  - destruct (shortest_from_sound _ _ _ _ _ (le_n 1) E) as (Hk & Hs & Hx).
    destruct (format_decimal_value s n k Hk Hs) as (V & HV & HVe).
    exists V. split; [exact HV|]. rewrite (js_of_Q_compat _ _ HVe). exact Hx.
  - pose proof (exact_decimal_value m e) as Hd.
    destruct (exact_decimal m e) as [s j].
    destruct Hd as [Hs Hv]. destruct (num_digits_spec s Hs) as [Hk Hlt].
    destruct (format_decimal_value s (j + Z.of_nat (num_digits s)) (num_digits s) Hk (conj Hs Hlt))
      as (V & HV & HVe).
    exists V. split; [exact HV|]. apply js_of_Q_exact; [exact Hb|].
    rewrite HVe, <- Hv. replace (j + Z.of_nat (num_digits s) - Z.of_nat (num_digits s))%Z with j
      by lia. reflexivity.
Qed.

(** The printed forms of positive binary64 values: [+Infinity] and finite
    values with a canonical representation. *)
Definition positive_binary64 (x : JNum) : Prop :=
  match x with
  | S754_finite false m e => bounded 53 1024 m e = true
  | S754_infinity false => True
  | _ => False
  end.

Lemma js_number_to_string_inj (x y : JNum) :
  positive_binary64 x -> positive_binary64 y ->
  js_number_to_string x = js_number_to_string y -> x = y.
Proof.
  assert (Hinf : forall m e, bounded 53 1024 m e = true ->
            positive_to_string m e <> "Infinity").
  { intros m e Hb Heq. destruct (positive_to_string_value m e Hb) as (V & HV & _).
    rewrite Heq in HV. vm_compute in HV. discriminate. }
  destruct x as [sx|sx| |sx mx ex]; try destruct sx; try contradiction;
  destruct y as [sy|sy| |sy my ey]; try destruct sy; try contradiction; simpl; intros Hx Hy Heq.
  - reflexivity.
  - exfalso. exact (Hinf _ _ Hy (eq_sym Heq)).
  - exfalso. exact (Hinf _ _ Hx Heq).
  - destruct (positive_to_string_value mx ex Hx) as (V & HV & HVx).
    destruct (positive_to_string_value my ey Hy) as (W & HW & HWy).
    rewrite Heq, HW in HV. injection HV as <-. rewrite <- HVx, <- HWy. reflexivity.
Qed.

(** ** C4 *)

Fixpoint colon_free (s : string) : bool :=
  match s with
  | EmptyString => true
  | String c s' => negb (Ascii.eqb c ":") && colon_free s'
  end.

Lemma split_at_colon (a b c d : string) :
  colon_free a = true -> colon_free c = true ->
  a +:+ ":" +:+ b = c +:+ ":" +:+ d -> a = c /\ b = d.
Proof.
  revert c. induction a as [|x a IH]; intros [|y c] Ha Hc Heq; simpl in *.
  - by injection Heq.
  - injection Heq as <- _. discriminate.
  - injection Heq as -> _. discriminate.
  - injection Heq as <- Heq. apply andb_prop in Ha as [_ Ha].
    apply andb_prop in Hc as [_ Hc].
    destruct (IH c Ha Hc Heq) as [-> ->]. done.
Qed.

Lemma colon_free_app (a b : string) : colon_free (a +:+ b) = colon_free a && colon_free b.
Proof.
  induction a as [|x a IH]; [reflexivity|].
  rewrite app_cons_str. cbn [colon_free]. rewrite IH. apply andb_assoc.
Qed.

Lemma digits_of_colon_free (v : Z) (k : nat) : colon_free (digits_of v k) = true.
Proof.
  induction k as [|k IH]; [reflexivity|]. cbn [digits_of colon_free]. rewrite IH, andb_true_r.
  assert (Hd : (0 <= (v / 10 ^ Z.of_nat k) mod 10 < 10)%Z) by (apply Z.mod_pos_bound; lia).
  revert Hd. generalize ((v / 10 ^ Z.of_nat k) mod 10)%Z. intros d Hd.
  assert (Hc : (d = 0 \/ d = 1 \/ d = 2 \/ d = 3 \/ d = 4 \/ d = 5 \/ d = 6 \/ d = 7 \/
                d = 8 \/ d = 9)%Z) by lia.
  repeat destruct Hc as [->|Hc]; try reflexivity. subst. reflexivity.
Qed.

Lemma format_decimal_colon_free (s n : Z) (k : nat) : colon_free (format_decimal s n k) = true.
Proof.
  unfold format_decimal. cbv zeta.
  repeat case_match; rewrite ?colon_free_app, ?digits_of_colon_free; reflexivity.
Qed.

Lemma js_number_to_string_colon_free (x : JNum) : colon_free (js_number_to_string x) = true.
Proof.
  assert (Hp : forall m e, colon_free (positive_to_string m e) = true).
  { intros m e. unfold positive_to_string.
    destruct (shortest_from _ _ 1 17) as [[[s n] k]|]; [apply format_decimal_colon_free|].
    destruct (exact_decimal m e). apply format_decimal_colon_free. }
  destruct x as [[]|[]| |[] m e]; try reflexivity;
    cbn [js_number_to_string]; rewrite ?colon_free_app; apply Hp.
Qed.

Lemma js_of_Z_1 : js_of_Z 1 = S754_finite false 4503599627370496 (-52).
Proof. reflexivity. Qed.

Lemma js_of_Z_100 : js_of_Z 100 = S754_finite false 7036874417766400 (-46).
Proof. reflexivity. Qed.

(** [Math.max(1, y)] of a binary64 value [y] other than NaN is [+Infinity]
    or a positive binary64 value. *)
Lemma js_max_one_positive (y : JNum) :
  valid_binary 53 1024 y = true -> y <> S754_nan ->
  positive_binary64 (js_max (js_of_Z 1) y).
Proof.
  intros Hy Hn. rewrite js_of_Z_1.
  destruct y as [s|s| |s m e]; [destruct s; vm_compute; reflexivity
                               |destruct s; vm_compute; auto|congruence|].
  cbn [js_max]. destruct (SFltb _ _) eqn:H; [|vm_compute; reflexivity].
  destruct s; [discriminate|exact Hy].
Qed.

Lemma js_or_binary64 (x d : JNum) :
  valid_binary 53 1024 x = true -> valid_binary 53 1024 d = true ->
  valid_binary 53 1024 (js_or x d) = true.
Proof. destruct x; auto. Qed.

Lemma js_or_not_nan (x d : JNum) : d <> S754_nan -> js_or x d <> S754_nan.
Proof. destruct x; simpl; congruence. Qed.

Lemma clamp_page_positive (x : JNum) :
  valid_binary 53 1024 x = true -> positive_binary64 (clamp_page x).
Proof.
  intros Hx. apply js_max_one_positive.
  - apply js_or_binary64; [exact Hx|reflexivity].
  - apply js_or_not_nan. rewrite js_of_Z_1. discriminate.
Qed.

Lemma clamp_limit_positive (x : JNum) :
  valid_binary 53 1024 x = true -> positive_binary64 (clamp_limit x).
Proof.
  intros Hx. unfold clamp_limit.
  assert (Hz : positive_binary64 (js_max (js_of_Z 1) (js_or x (js_of_Z 20)))).
  { apply js_max_one_positive.
    - apply js_or_binary64; [exact Hx|reflexivity].
    - apply js_or_not_nan. discriminate. }
  revert Hz. generalize (js_max (js_of_Z 1) (js_or x (js_of_Z 20))). intros z Hz.
  rewrite js_of_Z_100.
  destruct z as [s|s| |s m e]; try destruct s; try contradiction;
    cbn [js_min]; destruct (SFltb _ _); try exact Hz; vm_compute; reflexivity.
Qed.

Lemma concat_cons (sep x y : string) (l : list string) :
  String.concat sep (x :: y :: l) = x +:+ sep +:+ String.concat sep (y :: l).
Proof. reflexivity. Qed.

(** The filter tuple of a listing call: absent strings read as [""], an
    absent status as ["active"], page and limit clamped. *)
Definition listing_tuple (p : GetPropertiesParams)
  : string * string * string * string * string * string * JNum * JNum :=
  (default "" (gp_propertyType p), default "" (gp_city p), default "" (gp_minPrice p),
   default "" (gp_maxPrice p), default "active" (gp_status p), default "" (gp_ownerId p),
   clamp_page (gp_page p), clamp_limit (gp_limit p)).

Definition listing_fields_colon_free (p : GetPropertiesParams) : Prop :=
  colon_free (default "" (gp_propertyType p)) = true /\
  colon_free (default "" (gp_city p)) = true /\
  colon_free (default "" (gp_minPrice p)) = true /\
  colon_free (default "" (gp_maxPrice p)) = true /\
  colon_free (default "active" (gp_status p)) = true /\
  colon_free (default "" (gp_ownerId p)) = true.

(** Page and limit are binary64 values, as [Number(...)] returns. *)
Definition listing_numbers_binary64 (p : GetPropertiesParams) : Prop :=
  valid_binary 53 1024 (gp_page p) = true /\ valid_binary 53 1024 (gp_limit p) = true.

(** C4, as stated, fails: the filters [propertyType = "a:", city = "b"] and
    [propertyType = "a", city = ":b"] are distinct tuples with the same
    listing key, so the second call is served the first one's cached page. *)
Lemma listing_key_collision :
  let p1 := mkParams (Some "a:") (Some "b") None None None None (js_of_Z 1) (js_of_Z 20) in
  let p2 := mkParams (Some "a") (Some ":b") None None None None (js_of_Z 1) (js_of_Z 20) in
  listing_tuple p1 <> listing_tuple p2 /\ listing_key p1 = listing_key p2 /\
  fst (getProperties p2 (snd (getProperties p1 (demo_world no_failures))))
    = fst (getProperties p1 (demo_world no_failures)).
Proof.
  split; [discriminate|]. split; vm_compute; reflexivity.
Qed.

(** C4 (amended): over filter tuples (absent strings read as [""], an
    absent status as ["active"], page and limit the clamped binary64
    numbers) whose string fields contain no [':'], distinct tuples have
    distinct listing keys: [String] separates the clamped numbers, which
    are positive or [+Infinity], and contains no [':']. *)
Theorem listing_key_separates (p1 p2 : GetPropertiesParams) :
  listing_numbers_binary64 p1 -> listing_numbers_binary64 p2 ->
  listing_fields_colon_free p1 -> listing_fields_colon_free p2 ->
  listing_tuple p1 <> listing_tuple p2 -> listing_key p1 <> listing_key p2.
Proof.
  intros [P1 L1] [P2 L2] (A1 & B1 & C1 & D1 & E1 & F1) (A2 & B2 & C2 & D2 & E2 & F2) Hne Heq.
  apply Hne. unfold listing_key in Heq. rewrite !concat_cons in Heq.
  apply split_at_colon in Heq as [_ Heq]; [|reflexivity|reflexivity].
  apply split_at_colon in Heq as [Ht Heq]; [|done|done].
  apply split_at_colon in Heq as [Hc Heq]; [|done|done].
  apply split_at_colon in Heq as [Hmin Heq]; [|done|done].
  apply split_at_colon in Heq as [Hmax Heq]; [|done|done].
  apply split_at_colon in Heq as [Hs Heq]; [|done|done].
  apply split_at_colon in Heq as [Ho Heq]; [|done|done].
  apply split_at_colon in Heq as [Hp Hl]; [|apply js_number_to_string_colon_free..].
  apply js_number_to_string_inj in Hp; [|apply clamp_page_positive..]; [|done|done].
  simpl in Hl.
  apply js_number_to_string_inj in Hl; [|apply clamp_limit_positive..]; [|done|done].
  unfold listing_tuple. rewrite Ht, Hc, Hmin, Hmax, Hs, Ho, Hp, Hl. reflexivity.
Qed.

Lemma listing_key_separates_witness :
  listing_key (mkParams None (Some "A") None None None None (js_of_Q (5 # 2)) S754_nan)
  <> listing_key (mkParams None (Some "B") None None None None (js_of_Q (5 # 2)) S754_nan).
Proof.
  apply listing_key_separates.
  - split; reflexivity.
  - split; reflexivity.
  - repeat split.
  - repeat split.
  - discriminate.
Defined.

(** ** Computations that only talk to the store *)

Definition is_store_event (e : Event) : bool :=
  match e with EStore _ => true | _ => false end.

Definition is_invalidation (e : Event) : bool :=
  match e with ECacheInval _ | EOwnInval _ _ => true | _ => false end.

(** [m] leaves the cache alone and only appends store calls to the log. *)
Definition store_only {A} (m : M A) : Prop :=
  forall w, w_cache (snd (m w)) = w_cache w /\
    exists l, w_log (snd (m w)) = w_log w ++ l /\ Forall (fun e => is_store_event e = true) l.

Section StoreOnly.
Context {A B : Type}.

Lemma store_only_ret (a : A) : store_only (mret a).
Proof. intros w. split; [done|]. exists []. by rewrite app_nil_r. Qed.

Lemma store_only_throw (e : string) : store_only (@mthrow A e).
Proof. intros w. split; [done|]. exists []. by rewrite app_nil_r. Qed.

Lemma store_only_get_world : store_only get_world.
Proof. intros w. split; [done|]. exists []. by rewrite app_nil_r. Qed.

Lemma store_only_modify_db (f : DB -> DB) : store_only (modify_db f).
Proof. intros w. split; [done|]. exists []. by rewrite app_nil_r. Qed.

Lemma store_only_store_call (o : Op) : store_only (store_call o).
Proof. intros w. split; [done|]. exists [EStore o]. split; [done|]. by constructor. Qed.

Lemma store_only_bind (m : M A) (k : A -> M B) :
  store_only m -> (forall a, store_only (k a)) -> store_only (mbind m k).
Proof.
  intros Hm Hk w. unfold mbind. destruct (Hm w) as [Hc [l [Hl Hf]]].
  destruct (m w) as [[a|e] w1] eqn:E; simpl in *.
  - destruct (Hk a w1) as [Hc' [l' [Hl' Hf']]]. split; [congruence|].
    exists (l ++ l'). rewrite Hl', Hl, app_assoc. split; [done|]. by apply Forall_app.
  - split; [done|]. by exists l.
Qed.

Lemma store_only_catch (m : M A) (h : string -> M A) :
  store_only m -> (forall e, store_only (h e)) -> store_only (mcatch m h).
Proof.
  intros Hm Hh w. unfold mcatch. destruct (Hm w) as [Hc [l [Hl Hf]]].
  destruct (m w) as [[a|e] w1] eqn:E; simpl in *.
  - split; [done|]. by exists l.
  - destruct (Hh e w1) as [Hc' [l' [Hl' Hf']]]. split; [congruence|].
    exists (l ++ l'). rewrite Hl', Hl, app_assoc. split; [done|]. by apply Forall_app.
Qed.

End StoreOnly.

Create HintDb store_only.
Global Hint Resolve store_only_ret store_only_throw store_only_get_world
  store_only_modify_db store_only_store_call : store_only.

Ltac solve_store_only :=
  repeat match goal with
  | |- store_only (mbind _ _) => apply store_only_bind; [|intros ?]
  | |- store_only (mcatch _ _) => apply store_only_catch; [|intros ?]
  | |- store_only (match ?x with _ => _ end) => destruct x
  | |- store_only _ => solve [eauto with store_only]
  end.

Lemma getSupabaseOrThrow_store_only : store_only getSupabaseOrThrow.
Proof. unfold getSupabaseOrThrow. solve_store_only. Qed.

Lemma repo_findPropertyById_store_only id : store_only (repo_findPropertyById id).
Proof. unfold repo_findPropertyById. solve_store_only. Qed.

Lemma repo_updateProperty_store_only id pa : store_only (repo_updateProperty id pa).
Proof. unfold repo_updateProperty. solve_store_only. Qed.

Lemma repo_deleteProperty_store_only id : store_only (repo_deleteProperty id).
Proof. unfold repo_deleteProperty. solve_store_only. Qed.

Lemma assoc_one_store_only id userId u acc : store_only (assoc_one id userId u acc).
Proof. unfold assoc_one. solve_store_only. Qed.
Global Hint Resolve assoc_one_store_only getSupabaseOrThrow_store_only : store_only.

Lemma assoc_loop_store_only id userId urls acc : store_only (assoc_loop id userId urls acc).
Proof.
  revert acc. induction urls as [|u us IH]; intros acc; simpl; solve_store_only.
Qed.
Global Hint Resolve assoc_loop_store_only : store_only.

Lemma assoc_photos_store_only id pa userId : store_only (assoc_photos id pa userId).
Proof. unfold assoc_photos. solve_store_only. Qed.

(** ** C5 *)

Lemma bind_ret_inv {A B} (m : M A) (k : A -> M B) (w : World) (b : B) (w' : World) :
  mbind m k w = (Ret b, w') -> exists a w1, m w = (Ret a, w1) /\ k a w1 = (Ret b, w').
Proof. unfold mbind. destruct (m w) as [[a|e] w1]; intros H; [eauto|discriminate]. Qed.

Lemma prefix_refl (s : string) : String.prefix s s = true.
Proof.
  induction s as [|c s IH]; simpl; [done|]. destruct (ascii_dec c c); [done|congruence].
Qed.

Lemma invalidate_lookup_prefixed (t k : string) (c : Cache) :
  String.prefix t k = true ->
  filter (fun kv : string * (CVal * Z) => String.prefix t kv.1 = false) c !! k = None.
Proof. intros H. apply map_lookup_filter_None_2. right. intros x _. simpl. congruence. Qed.

Lemma invalidate_lookup_None (t k : string) (c : Cache) :
  c !! k = None ->
  filter (fun kv : string * (CVal * Z) => String.prefix t kv.1 = false) c !! k = None.
Proof. intros H. apply map_lookup_filter_None_2. by left. Qed.

Lemma filter_store_events (l : list Event) :
  Forall (fun e => is_store_event e = true) l -> List.filter is_invalidation l = [].
Proof. induction 1 as [|e l He _ IH]; simpl; [done|]. by destruct e; simpl in *. Qed.

(** With no cache entry for the property, [getPropertyById] answers from
    the store. *)
Lemma getPropertyById_from_store (id : string) (w : World) :
  w_cache w !! detail_key id = None ->
  match getPropertyById id w with
  | (Ret r, _) => r = option_map CProp (find_prop id (properties (w_db w)))
  | _ => True
  end.
Proof.
  intros Hc. unfold getPropertyById, cache_get, mbind, repo_findPropertyById,
    store_call, get_world, mret, mthrow, cache_set.
  cbn. rewrite Hc. cbn. destruct (w_fail w (OpFindProperty id)); cbn; [done|].
  by destruct (find_prop id (properties (w_db w))).
Qed.

Definition the_three_invalidations (id : string) : list Event :=
  [ECacheInval (detail_key id); ECacheInval "properties:"; EOwnInval "property" id].

(** The tail shared by [updateProperty] and [deleteProperty]. *)
Lemma three_invalidations_effect {A} (id : string) (x : A) (w0 w w' : World) (r : A) :
  (exists l, w_log w = w_log w0 ++ l /\ Forall (fun e => is_store_event e = true) l) ->
  (cache_invalidate (detail_key id) ;;; cache_invalidate "properties:" ;;;
   invalidateOwnershipCache "property" id ;;; mret x) w = (Ret r, w') ->
  (exists l, w_log w' = w_log w0 ++ l /\
             List.filter is_invalidation l = the_three_invalidations id) /\
  w_cache w' !! detail_key id = None.
Proof.
  intros [l [Hl Hf]] H. cbn in H. injection H as _ <-. cbn. split.
  - exists (l ++ the_three_invalidations id). rewrite Hl, <-!app_assoc. split; [done|].
    rewrite List.filter_app, filter_store_events by done. reflexivity.
  - apply invalidate_lookup_None, invalidate_lookup_prefixed, prefix_refl.
Qed.

(** C5: a successful [updateProperty id] or [deleteProperty id] performs
    exactly three invalidations, in order: the entry [property:<id>], the
    listing namespace [properties:], and the ownership-cache entry
    [("property", id)]; and a [getPropertyById id] issued right after
    answers from the store's current row, never from a cached copy. *)
Theorem update_delete_three_invalidations (id : string) (pa : Patch)
    (userId : option string) (w : World) :
  match updateProperty id pa userId w with
  | (Ret _, w') =>
      (exists l, w_log w' = w_log w ++ l /\
                 List.filter is_invalidation l = the_three_invalidations id) /\
      match getPropertyById id w' with
      | (Ret r, _) => r = option_map CProp (find_prop id (properties (w_db w')))
      | _ => True
      end
  | _ => True
  end /\
  match deleteProperty id userId w with
  | (Ret _, w') =>
      (exists l, w_log w' = w_log w ++ l /\
                 List.filter is_invalidation l = the_three_invalidations id) /\
      match getPropertyById id w' with
      | (Ret r, _) => r = option_map CProp (find_prop id (properties (w_db w')))
      | _ => True
      end
  | _ => True
  end.
Proof.
  split.
  - destruct (updateProperty id pa userId w) as [[upd|e] w'] eqn:H; [|done].
    unfold updateProperty in H. apply bind_ret_inv in H as [prop [w1 [Hf H]]].
    destruct prop as [p|]; [|discriminate].
    destruct (denies userId (owner_id p)); [discriminate|].
    apply bind_ret_inv in H as [u [w2 [Hu H]]].
    apply bind_ret_inv in H as [[] [w3 [Ha H]]].
    destruct (repo_findPropertyById_store_only id w) as [_ [l1 [Hl1 Hs1]]].
    destruct (repo_updateProperty_store_only id pa w1) as [_ [l2 [Hl2 Hs2]]].
    destruct (assoc_photos_store_only id pa userId w2) as [_ [l3 [Hl3 Hs3]]].
    rewrite Hf in Hl1. rewrite Hu in Hl2. rewrite Ha in Hl3. simpl in *.
    apply (three_invalidations_effect id u w) in H as [Hlog Hc].
    + split; [done|]. by apply getPropertyById_from_store.
    + exists (l1 ++ l2 ++ l3). rewrite Hl3, Hl2, Hl1, <-!app_assoc.
      split; [done|]. by repeat apply Forall_app_2.
  - destruct (deleteProperty id userId w) as [[[]|e] w'] eqn:H; [|done].
    unfold deleteProperty in H. apply bind_ret_inv in H as [prop [w1 [Hf H]]].
    destruct prop as [p|]; [|discriminate].
    destruct (denies userId (owner_id p)); [discriminate|].
    apply bind_ret_inv in H as [[] [w2 [Hd H]]].
    destruct (repo_findPropertyById_store_only id w) as [_ [l1 [Hl1 Hs1]]].
    destruct (repo_deleteProperty_store_only id w1) as [_ [l2 [Hl2 Hs2]]].
    rewrite Hf in Hl1. rewrite Hd in Hl2. simpl in *.
    assert (H' : (cache_invalidate (detail_key id) ;;; cache_invalidate "properties:" ;;;
                  invalidateOwnershipCache "property" id ;;; mret tt) w2 = (Ret tt, w')).
    { rewrite <-H. cbn. reflexivity. }
    apply (three_invalidations_effect id tt w) in H' as [Hlog Hc].
    + split; [done|]. by apply getPropertyById_from_store.
    + exists (l1 ++ l2). rewrite Hl2, Hl1, <-!app_assoc.
      split; [done|]. by apply Forall_app_2.
Qed.

(** ** C6 *)

Definition photo_update_errors : Op -> option Fail :=
  fun o => match o with OpUpdatePhoto _ => Some FErr | _ => None end.

Definition orphan_fetch_errors : Op -> option Fail :=
  fun o => match o with OpFetchOrphans => Some FErr | _ => None end.

(** C6 diverges: the handler reads only [data] from each store response.
    When the photo update resolves with an error, the pair [(ph1, p1)] is
    still reported as reconciled although [ph1] stays an orphan; when the
    initial orphan fetch resolves with an error, the handler answers 200
    with an empty list instead of failing. *)
Lemma reconcile_ignores_error_responses :
  fst (reconcile_photos (demo_world photo_update_errors)) = Ret (Http200 [("ph1", "p1")]) /\
  orphans (w_db (snd (reconcile_photos (demo_world photo_update_errors))))
    = orphans demo_db /\
  orphans demo_db <> [] /\
  fst (reconcile_photos (demo_world orphan_fetch_errors)) = Ret (Http200 []).
Proof. vm_compute. repeat split; discriminate. Qed.

(** ** C7 *)

Definition many_orphans_db (n : nat) : DB :=
  mkDB [mkProperty "p1" "o1" ["https://cdn/1.jpg"] [] 0]
       (map (fun i => mkPhoto ("ph" +:+ pretty i) "https://cdn/1.jpg" "https://cdn/1.jpg"
                        "property" None None "upload") (seq 0 n))
       0%N.

(** C7, as stated, fails: with 201 orphans whose URL a property lists, the
    first sweep associates the 200 of its batch and a second sweep, with
    nothing changed in between, associates the last one. *)
Lemma reconcile_second_pass_nonempty :
  let w := mkWorld (many_orphans_db 201) ∅ [] 0 no_failures 60 300 in
  fst (reconcile_photos (snd (reconcile_photos w))) = Ret (Http200 [("ph200", "p1")]).
Proof. vm_compute. reflexivity. Qed.

(** ** C9 *)

(** C9: [recordPropertyView] only awaits the repository call and catches
    nothing, so a failed increment reaches its caller, and the
    [POST /:id/view] handler's [catch] answers 500. *)
Theorem recordPropertyView_failure_propagates (id : string) (w : World) :
  w_fail w (OpIncrementViews id) <> None ->
  fst (recordPropertyView id w) = Throw "StoreFault" /\
  fst (route_record_view id w) = Ret (mkResponse 500 (PError "Failed to record view")).
Proof.
  intros Hf. unfold route_record_view, recordPropertyView, repo_incrementPropertyViews,
    mcatch, mbind, store_call, mthrow, mret.
  cbn. destruct (w_fail w (OpIncrementViews id)); [split; reflexivity|contradiction].
Qed.

Lemma recordPropertyView_failure_propagates_witness :
  fst (recordPropertyView "p1" (demo_world (fun _ => Some FErr))) = Throw "StoreFault" /\
  fst (route_record_view "p1" (demo_world (fun _ => Some FErr)))
    = Ret (mkResponse 500 (PError "Failed to record view")).
Proof. apply recordPropertyView_failure_propagates. cbn. discriminate. Defined.

(** C9, as stated, fails: the increment of the view counter of ["p1"]
    fails, and [recordPropertyView] throws instead of completing. *)
Lemma recordPropertyView_store_fault :
  fst (recordPropertyView "p1" (demo_world (fun o => match o with
                                                    | OpIncrementViews _ => Some FThrow
                                                    | _ => None
                                                    end))) = Throw "StoreFault".
Proof. vm_compute. reflexivity. Qed.

(** *** Two sweeps in a row *)

Definition set_fail (w : World) (f : Op -> option Fail) : World :=
  mkWorld (w_db w) (w_cache w) (w_log w) (w_now w) f (w_ttl_list w) (w_ttl_detail w).

Lemma find_prop_with_image_props (u : string) (d1 d2 : DB) :
  properties d1 = properties d2 -> find_prop_with_image u d1 = find_prop_with_image u d2.
Proof. unfold find_prop_with_image. by intros ->. Qed.

Lemma in_orphans (q : Photo) (d : DB) :
  In q (orphans d) <-> In q (photos d) /\ property_id q = None.
Proof. unfold orphans. rewrite filter_In. by rewrite bool_decide_eq_true. Qed.

Lemma orphans_set_photo_property (q : Photo) (phid pid : string) (d : DB) :
  In q (orphans (set_photo_property phid pid d)) -> In q (orphans d) /\ photo_id q <> phid.
Proof.
  rewrite !in_orphans. simpl. intros [Hin Hnone].
  apply in_map_iff in Hin as [q0 [Hq Hin]].
  destruct (String.eqb (photo_id q0) phid) eqn:E; subst q; simpl in Hnone; [discriminate|].
  split; [done|]. by apply String.eqb_neq.
Qed.

Lemma reconcile_one_nomatch (p : Photo) (acc : list (string * string)) (w : World) :
  find_prop_with_image (url p) (w_db w) = None ->
  exists w', reconcile_one p acc w = (Ret acc, w') /\ w_db w' = w_db w.
Proof.
  intros Hn. unfold reconcile_one, mcatch, mbind, store_call, get_world, mret, mthrow.
  cbn. destruct (w_fail w (OpLookupPropertyByImage (url p))) as [[|]|]; cbn; eauto.
  rewrite Hn. cbn. eauto.
Qed.

Lemma reconcile_loop_nomatch (ps : list Photo) (acc : list (string * string)) (w : World) :
  (forall q, In q ps -> find_prop_with_image (url q) (w_db w) = None) ->
  exists w', reconcile_loop ps acc w = (Ret acc, w').
Proof.
  revert w. induction ps as [|p ps IH]; intros w Hn; simpl; [eauto|].
  destruct (reconcile_one_nomatch p acc w) as [w1 [H1 Hd1]]; [apply Hn; by left|].
  unfold mbind. rewrite H1. apply IH. intros q Hq. rewrite Hd1. apply Hn. by right.
Qed.

Lemma in_firstn {A} (n : nat) (l : list A) (x : A) : In x (List.firstn n l) -> In x l.
Proof.
  revert l. induction n as [|n IH]; intros [|y l] H; simpl in *; try contradiction.
  destruct H as [<-|H]; [by left|right; by apply IH].
Qed.

(** ** C8 *)

(** The pagination relations a listing result is built with. *)
Definition pagination_ok (pg : Pagination) : Prop :=
  SFleb (js_of_Z 1) (pg_page pg) = true /\
  SFleb (js_of_Z 1) (pg_limit pg) = true /\ SFleb (pg_limit pg) (js_of_Z 100) = true /\
  pg_totalPages pg = js_ceil (SFdiv 53 1024 (js_of_Z (pg_total pg)) (pg_limit pg)) /\
  pg_hasNextPage pg = SFltb (pg_page pg) (pg_totalPages pg) /\
  pg_hasPrevPage pg = SFltb (js_of_Z 1) (pg_page pg).

Definition listing_value_ok (v : CVal) : Prop :=
  match v with CList r => pagination_ok (lr_pagination r) | CProp _ => False end.

(** Every entry of the listing namespace holds a well-built listing. *)
Definition cache_listings_ok (c : Cache) : Prop :=
  forall k v e, c !! k = Some (v, e) -> String.prefix "properties:" k = true ->
  listing_value_ok v.

(** The value [get] would return at instant [now]. *)
Definition live_entry (c : Cache) (k : string) (now : Z) : option CVal :=
  match c !! k with
  | Some (v, e) => if Z.ltb e now then None else Some v
  | None => None
  end.

Lemma SFltb_SFleb (a b : JNum) : SFltb a b = true -> SFleb a b = true.
Proof. unfold SFltb, SFleb. destruct (SFcompare a b) as [[]|]; congruence. Qed.

Lemma clamp_page_ge1 (n : JNum) : SFleb (js_of_Z 1) (clamp_page n) = true.
Proof.
  unfold clamp_page. rewrite js_of_Z_1.
  destruct n as [s|s| |s m e];
    [destruct s; vm_compute; reflexivity|destruct s; vm_compute; reflexivity
    |vm_compute; reflexivity|].
  cbn [js_or js_max]. destruct (SFltb _ _) eqn:H;
    [apply SFltb_SFleb; exact H|vm_compute; reflexivity].
Qed.

Lemma clamp_limit_range (n : JNum) :
  SFleb (js_of_Z 1) (clamp_limit n) = true /\ SFleb (clamp_limit n) (js_of_Z 100) = true.
Proof.
  unfold clamp_limit. rewrite js_of_Z_1, js_of_Z_100.
  destruct n as [s|s| |s m e];
    [destruct s; vm_compute; split; reflexivity|destruct s; vm_compute; split; reflexivity
    |vm_compute; split; reflexivity|].
  cbn [js_or js_max]. destruct (SFltb _ (S754_finite s m e)) eqn:H1;
    [|vm_compute; split; reflexivity].
  cbn [js_min]. destruct (SFltb (S754_finite s m e) _) eqn:H2;
    [split; apply SFltb_SFleb; assumption|vm_compute; split; reflexivity].
Qed.

Lemma mk_pagination_ok (page limit : JNum) (count : Z) :
  SFleb (js_of_Z 1) page = true ->
  SFleb (js_of_Z 1) limit = true -> SFleb limit (js_of_Z 100) = true ->
  pagination_ok (mk_pagination page limit count).
Proof.
  intros Hp Hl1 Hl2. unfold pagination_ok, mk_pagination.
  cbn [pg_page pg_limit pg_total pg_totalPages pg_hasNextPage pg_hasPrevPage].
  repeat split; assumption.
Qed.

Lemma listing_key_prefixed (params : GetPropertiesParams) :
  String.prefix "properties:" (listing_key params) = true.
Proof.
  unfold listing_key. rewrite concat_cons. simpl.
  match goal with |- String.prefix "" ?s = true => by destruct s end.
Qed.

Lemma cache_listings_ok_delete (c : Cache) (k : string) :
  cache_listings_ok c -> cache_listings_ok (delete k c).
Proof.
  intros Hok k' v e Hl Hp. apply lookup_delete_Some in Hl as [_ Hl]. by eapply Hok.
Qed.

Lemma cache_listings_ok_insert (c : Cache) (k : string) (v : CVal) (e : Z) :
  cache_listings_ok c -> listing_value_ok v -> cache_listings_ok (<[k := (v, e)]> c).
Proof.
  intros Hok Hv k' v' e' Hl Hp. apply lookup_insert_Some in Hl as [[_ [= <- _]]|[_ Hl]].
  - done.
  - by eapply Hok.
Qed.

(** The store path of [getProperties], from a world whose cache has no
    live entry for the key. *)
Lemma getProperties_store_path (params : GetPropertiesParams) (w : World) :
  cache_listings_ok (w_cache w) ->
  match (res <- repo_findAllProperties params (clamp_page (gp_page params))
                  (clamp_limit (gp_limit params)) ;;
         let '(data, count) := res in
         let result := CList (mkListResult data
                         (mk_pagination (clamp_page (gp_page params))
                            (clamp_limit (gp_limit params)) count)) in
         w0 <- get_world ;;
         cache_set (listing_key params) result (w_ttl_list w0) ;;;
         mret result) w with
  | (Ret v, w') =>
      listing_value_ok v /\ cache_listings_ok (w_cache w') /\
      exists data, v = CList (mkListResult data
                     (mk_pagination (clamp_page (gp_page params)) (clamp_limit (gp_limit params))
                        (Z.of_nat (length (matching_rows params (w_db w))))))
  | _ => True
  end.
Proof.
  intros Hok. unfold repo_findAllProperties, mbind, store_call, get_world, mret, mthrow,
    cache_set.
  cbn -[mk_pagination matching_rows listing_key].
  destruct (w_fail w OpFindAll); cbn -[mk_pagination matching_rows listing_key]; [done|].
  assert (Hv : forall count, pagination_ok (mk_pagination
              (clamp_page (gp_page params)) (clamp_limit (gp_limit params)) count)).
  { intros. destruct (clamp_limit_range (gp_limit params)).
    apply mk_pagination_ok; [apply clamp_page_ge1|assumption|assumption]. }
  split; [apply Hv|]. split; [|eexists; reflexivity].
  apply cache_listings_ok_insert; [done|apply Hv].
Qed.

(** C8: for all parameters, whatever numbers page and limit are,
    [getProperties] clamps page to at least 1 and limit into [1, 100], and
    builds pagination as [totalPages = ceil(total / limit)],
    [hasNextPage = page < totalPages], [hasPrevPage = page > 1] from the
    store's total count of matching rows, in binary64 arithmetic.  From a cache whose listing
    namespace holds only listings built that way (the empty cache does),
    every answer is such a listing, the cache keeps that shape, and an
    answer not served from a live cache entry carries the clamped page and
    limit and the store's count. *)
Theorem getProperties_pagination (params : GetPropertiesParams) (w : World) :
  cache_listings_ok (w_cache w) ->
  match getProperties params w with
  | (Ret v, w') =>
      listing_value_ok v /\ cache_listings_ok (w_cache w') /\
      match live_entry (w_cache w) (listing_key params) (w_now w) with
      | Some v0 => v = v0
      | None =>
          exists data, v = CList (mkListResult data
            (mk_pagination (clamp_page (gp_page params)) (clamp_limit (gp_limit params))
               (Z.of_nat (length (matching_rows params (w_db w))))))
      end
  | _ => True
  end.
Proof.
  intros Hok. unfold getProperties, live_entry.
  unfold mbind at 1. unfold cache_get.
  destruct (w_cache w !! listing_key params) as [[v0 e]|] eqn:Hc.
  - destruct (Z.ltb e (w_now w)) eqn:He.
    + pose proof (getProperties_store_path params
        (set_cache (log_event w (ECacheGet (listing_key params)))
           (delete (listing_key params) (w_cache w)))) as HS.
      apply HS. by apply cache_listings_ok_delete.
    + cbn. split; [|split; [done|reflexivity]].
      eapply Hok; [exact Hc|apply listing_key_prefixed].
  - pose proof (getProperties_store_path params
      (log_event w (ECacheGet (listing_key params)))) as HS.
    apply HS. exact Hok.
Qed.

Lemma getProperties_pagination_witness :
  match getProperties (mkParams None (Some "A") None None None None (js_of_Q (5 # 2)) (js_of_Z 500))
          (demo_world no_failures) with
  | (Ret v, w') =>
      listing_value_ok v /\ cache_listings_ok (w_cache w') /\
      match live_entry (w_cache (demo_world no_failures))
              (listing_key (mkParams None (Some "A") None None None None (js_of_Q (5 # 2)) (js_of_Z 500)))
              (w_now (demo_world no_failures)) with
      | Some v0 => v = v0
      | None =>
          exists data, v = CList (mkListResult data
            (mk_pagination (clamp_page (js_of_Q (5 # 2))) (clamp_limit (js_of_Z 500))
               (Z.of_nat (length (matching_rows
                  (mkParams None (Some "A") None None None None (js_of_Q (5 # 2)) (js_of_Z 500))
                  (w_db (demo_world no_failures)))))))
      end
  | _ => True
  end.
Proof.
  apply (getProperties_pagination
           (mkParams None (Some "A") None None None None (js_of_Q (5 # 2)) (js_of_Z 500))).
  intros k v e Hl. vm_compute in Hl. discriminate.
Defined.

(** ** C10 *)

Lemma getPropertyById_absent_miss (id : string) (w : World) :
  w_cache w !! detail_key id = None ->
  w_fail w (OpFindProperty id) = None ->
  find_prop id (properties (w_db w)) = None ->
  getPropertyById id w
    = (Ret None, log_event (log_event w (ECacheGet (detail_key id)))
                   (EStore (OpFindProperty id))).
Proof.
  intros Hc Hf Hp. unfold getPropertyById, cache_get, mbind, repo_findPropertyById,
    store_call, get_world, mret.
  cbn. rewrite Hc. cbn. rewrite Hf. cbn. rewrite Hp. reflexivity.
Qed.

Lemma live_entry_delete_expired (c : Cache) (k k' : string) (v : CVal) (e now t : Z) :
  c !! k = Some (v, e) -> (e < now)%Z -> (now <= t)%Z ->
  live_entry (delete k c) k' t = live_entry c k' t.
Proof.
  intros Hc He Ht. unfold live_entry.
  destruct (decide (k = k')) as [<-|Hne].
  - rewrite lookup_delete_eq, Hc. destruct (Z.ltb_spec e t); [done|lia].
  - by rewrite lookup_delete_ne.
Qed.

(** C10: [getPropertyById] never caches absence.  For an id absent from
    the store, the call writes no cache entry (every entry afterwards was
    there before, and the live entries at any later instant are the same),
    leaves the store alone, and, when the cache had no live entry for the
    id and the read succeeds, it returns [null] and a following call for
    the same id reaches the store again and returns [null] too. *)
Theorem getPropertyById_absent_not_cached (id : string) (w : World) :
  find_prop id (properties (w_db w)) = None ->
  let '(o, w') := getPropertyById id w in
  (forall k x, w_cache w' !! k = Some x -> w_cache w !! k = Some x) /\
  (forall k t, (w_now w <= t)%Z -> live_entry (w_cache w') k t = live_entry (w_cache w) k t) /\
  w_db w' = w_db w /\
  (live_entry (w_cache w) (detail_key id) (w_now w) = None ->
   w_fail w (OpFindProperty id) = None ->
   o = Ret None /\
   fst (getPropertyById id w') = Ret None /\
   exists l, w_log (snd (getPropertyById id w')) = w_log w' ++ l /\
             In (EStore (OpFindProperty id)) l).
Proof.
  intros Hp.
  destruct (w_cache w !! detail_key id) as [[v e]|] eqn:Hc.
  - destruct (Z.ltb_spec e (w_now w)) as [He|He].
    + (* an expired entry: evicted, then the store is read *)
      unfold getPropertyById at 1. unfold cache_get at 1, mbind at 1.
      rewrite Hc. destruct (Z.ltb_spec e (w_now w)) as [_|]; [|lia].
      unfold repo_findPropertyById, mbind, store_call, get_world, mret, mthrow.
      cbn. destruct (w_fail w (OpFindProperty id)) as [f|] eqn:Hf; cbn; [|rewrite Hp];
        cbn; (split; [intros k x Hl; by apply lookup_delete_Some in Hl as [_ Hl]|]);
        (split; [intros k t Ht; eapply live_entry_delete_expired; eauto|]);
        (split; [done|]); intros _ Hf'; [congruence|].
      rewrite getPropertyById_absent_miss; cbn; try done.
      * split; [done|]. split; [done|].
        exists [ECacheGet (detail_key id); EStore (OpFindProperty id)].
        rewrite <-app_assoc. split; [done|]. right. by left.
      * apply lookup_delete_eq.
    + (* a live entry: returned as is *)
      unfold getPropertyById, cache_get, mbind, mret. rewrite Hc.
      destruct (Z.ltb_spec e (w_now w)) as [|_]; [lia|]. cbn.
      split; [done|]. split; [done|]. split; [done|].
      unfold live_entry. rewrite Hc. destruct (Z.ltb_spec e (w_now w)); [lia|].
      discriminate.
  - (* no entry: the store is read *)
    unfold getPropertyById at 1. unfold cache_get at 1, mbind at 1. rewrite Hc.
    unfold repo_findPropertyById, mbind, store_call, get_world, mret, mthrow.
    cbn. destruct (w_fail w (OpFindProperty id)) as [f|] eqn:Hf; cbn; [|rewrite Hp];
      cbn; (split; [done|]); (split; [done|]); (split; [done|]); intros _ Hf';
      [congruence|].
    rewrite getPropertyById_absent_miss; cbn; try done.
    split; [done|]. split; [done|].
    exists [ECacheGet (detail_key id); EStore (OpFindProperty id)].
    rewrite <-app_assoc. split; [done|]. right. by left.
Qed.

Lemma getPropertyById_absent_not_cached_witness :
  let '(o, w') := getPropertyById "p9" (demo_world no_failures) in
  (forall k x, w_cache w' !! k = Some x -> w_cache (demo_world no_failures) !! k = Some x) /\
  (forall k t, (w_now (demo_world no_failures) <= t)%Z ->
     live_entry (w_cache w') k t = live_entry (w_cache (demo_world no_failures)) k t) /\
  w_db w' = w_db (demo_world no_failures) /\
  (live_entry (w_cache (demo_world no_failures)) (detail_key "p9")
     (w_now (demo_world no_failures)) = None ->
   w_fail (demo_world no_failures) (OpFindProperty "p9") = None ->
   o = Ret None /\
   fst (getPropertyById "p9" w') = Ret None /\
   exists l, w_log (snd (getPropertyById "p9" w')) = w_log w' ++ l /\
             In (EStore (OpFindProperty "p9")) l).
Proof. apply (getPropertyById_absent_not_cached "p9"). reflexivity. Defined.

(** ** Concrete runs of the spec's scenarios *)

Definition two_image_body : Body :=
  mkBody [("title", "Test Property"); ("address", "123 Test Lane"); ("city", "Testville");
          ("price", "1000.00")]
    (Some [JStr "https://cdn.example.com/prop/1.jpg"; JStr "https://cdn.example.com/prop/2.jpg"]).

(** The second photo insert of the procedure fails: nothing is left. *)
Example create_second_photo_fails :
  let fail := fun o => match o with
                       | OpProcInsertPhoto "https://cdn.example.com/prop/2.jpg" => Some FErr
                       | _ => None
                       end in
  w_db (snd (createProperty two_image_body "user_abc" (demo_world fail))) = demo_db.
Proof. vm_compute. reflexivity. Qed.

(** The end-to-end example: the new row and exactly its two photo rows. *)
Example create_end_to_end :
  let '(o, w') := createProperty two_image_body "user_abc" (demo_world no_failures) in
  o = Ret (CreateData (mkProperty "id10" "user_abc"
             ["https://cdn.example.com/prop/1.jpg"; "https://cdn.example.com/prop/2.jpg"]
             (body_fields two_image_body) 0)) /\
  map url (List.filter (fun ph => bool_decide (property_id ph = Some "id10")) (photos (w_db w')))
    = ["https://cdn.example.com/prop/1.jpg"; "https://cdn.example.com/prop/2.jpg"].
Proof. vm_compute. split; reflexivity. Qed.

(** An update by the owner succeeds and invalidates the three entries. *)
Example update_by_owner_invalidates :
  let '(o, w') := updateProperty "p1" (mkPatch [("title", "New")] (Some ["https://cdn/4.jpg"]))
                    (Some "o1") (demo_world no_failures) in
  (exists p, o = Ret p) /\
  List.filter is_invalidation (w_log w') = the_three_invalidations "p1".
Proof. vm_compute. split; [eexists; reflexivity|reflexivity]. Qed.

(* ------------------------------------------------------------------ *)
(** * Further properties of the code *)

(** ** validateImageUrls *)

Lemma prefix_app_inv (s1 s2 : string) :
  String.prefix s1 s2 = true -> exists t, s2 = s1 +:+ t.
Proof.
  revert s2. induction s1 as [|a s1 IH]; intros s2 H; [by exists s2|].
  destruct s2 as [|b s2]; [discriminate|]. simpl in H.
  destruct (ascii_dec a b) as [<-|]; [|discriminate].
  destruct (IH s2 H) as [t ->]. by exists t.
Qed.

Lemma data_not_http (s : string) :
  String.prefix "data:" s = true ->
  String.prefix "http://" s = false /\ String.prefix "https://" s = false.
Proof. intros H. apply prefix_app_inv in H as [t ->]. split; reflexivity. Qed.

Definition http_url (v : JVal) : Prop :=
  exists s, v = JStr s /\ (String.prefix "http://" s = true \/ String.prefix "https://" s = true).

Lemma validate_entries_ok (vs : list JVal) :
  validate_entries vs = Ret tt <-> Forall http_url vs.
Proof.
  unfold http_url. induction vs as [|[s|] vs IH]; simpl.
  - split; [constructor|done].
  - rewrite Forall_cons, <-IH.
    destruct (String.prefix "data:" s) eqn:Hd.
    + split; [discriminate|]. intros [[s' [[= <-] Hh]] _].
      apply data_not_http in Hd as [H1 H2]. rewrite H1, H2 in Hh. by destruct Hh.
    + destruct (String.prefix "http://" s) eqn:H1, (String.prefix "https://" s) eqn:H2;
        simpl; try (split; [intros H; split; [eexists; eauto|done]|intros [_ H]; done]).
      split; [discriminate|]. intros [[s' [[= <-] Hh]] _]. rewrite H1, H2 in Hh. by destruct Hh.
  - rewrite Forall_cons. split; [discriminate|]. intros [[s [? _]] _]. discriminate.
Qed.

(** validateImageUrls accepts an array exactly when it has at most 25
    entries and each is a string starting with [http://] or [https://];
    its [data:] check only changes the message. *)
Theorem validateImageUrls_accepts (vs : list JVal) :
  validateImageUrls (JArray vs) = Ret tt <-> length vs <= 25 /\ Forall http_url vs.
Proof.
  unfold validateImageUrls. rewrite <-validate_entries_ok.
  destruct (Nat.ltb_spec 25 (length vs)).
  - split; [discriminate|lia].
  - split; [intros Hv; split; [lia|done]|intros [_ Hv]; done].
Qed.

Lemma validate_entries_app (pre rest : list JVal) :
  validate_entries pre = Ret tt -> validate_entries (pre ++ rest) = validate_entries rest.
Proof.
  induction pre as [|[s|] pre IH]; simpl; [done| |discriminate].
  destruct (String.prefix "data:" s); [discriminate|].
  destruct (negb _ && negb _); [discriminate|]. exact IH.
Qed.

(** Entries are checked in order, and the [data:] check comes before the
    URL check: an array of at most 25 entries whose first bad entry is a
    [data:] string is rejected with the Base64 message. *)
Theorem validateImageUrls_base64_entry (pre post : list JVal) (s : string) :
  length (pre ++ JStr s :: post) <= 25 ->
  Forall http_url pre ->
  String.prefix "data:" s = true ->
  validateImageUrls (JArray (pre ++ JStr s :: post))
    = Throw "Base64 images are not allowed. Upload to ImageKit first.".
Proof.
  intros Hlen Hpre Hd. unfold validateImageUrls.
  destruct (Nat.ltb_spec 25 (length (pre ++ JStr s :: post))); [lia|].
  rewrite validate_entries_app by by apply validate_entries_ok.
  simpl. by rewrite Hd.
Qed.

Lemma validateImageUrls_base64_entry_witness :
  validateImageUrls (JArray [JStr "https://cdn/1.jpg"; JStr "data:image/png;base64,AAAA";
                             JStr "ftp://x"])
    = Throw "Base64 images are not allowed. Upload to ImageKit first.".
Proof.
  apply (validateImageUrls_base64_entry [JStr "https://cdn/1.jpg"] [JStr "ftp://x"]).
  - simpl. lia.
  - constructor; [|constructor]. exists "https://cdn/1.jpg". split; [done|right; reflexivity].
  - reflexivity.
Defined.

(** ** Photo association in updateProperty *)

(** Store calls of the photo-association block of [updateProperty]. *)
Definition photo_assoc_op (o : Op) : bool :=
  match o with
  | OpGetClient | OpLookupOrphanByUrl _ | OpUpdatePhoto _ | OpInsertPhotos => true
  | _ => false
  end.

Definition photo_assoc_event (e : Event) : bool :=
  match e with EStore o => photo_assoc_op o | _ => false end.

(** Some photo row carries URL [x] and points at property [id]. *)
Definition linked (id : string) (d : DB) (x : string) : Prop :=
  exists ph, In ph (photos d) /\ url ph = x /\ property_id ph = Some id.

(** [x] is linked in [d] or queued in [acc] for insertion with [id]. *)
Definition covered (id : string) (d : DB) (acc : list Photo) (x : string) : Prop :=
  linked id d x \/ Exists (fun r => url r = x /\ property_id r = Some id) acc.

Lemma mcatch_unit (m : M unit) (w : World) :
  fst (mcatch m (fun _ => mret tt) w) = Ret tt.
Proof. unfold mcatch. by destruct (m w) as [[[]|e] w']. Qed.

Lemma assoc_photos_ret (id : string) (pa : Patch) (u : option string) (w : World) :
  fst (assoc_photos id pa u w) = Ret tt.
Proof. apply mcatch_unit. Qed.

Lemma updateProperty_outcome (id : string) (pa : Patch) (u : option string) (w : World) :
  fst (updateProperty id pa u w) =
  fst ((property <- repo_findPropertyById id ;;
        match property with
        | None => mthrow "Property not found"
        | Some p =>
            if denies u (owner_id p)
            then mthrow "Unauthorized: You do not own this property"
            else repo_updateProperty id pa
        end) w).
Proof.
  unfold updateProperty, mbind.
  destruct (repo_findPropertyById id w) as [[[p|]|e] w1]; try reflexivity.
  destruct (denies u (owner_id p)); [reflexivity|].
  destruct (repo_updateProperty id pa w1) as [[upd|e] w2]; [|reflexivity].
  pose proof (assoc_photos_ret id pa u w2) as Ha.
  destruct (assoc_photos id pa u w2) as [[[]|e] w3]; [reflexivity|discriminate].
Qed.

(** The photo association of [updateProperty] never decides its outcome:
    two worlds that differ only in how the photo-association store calls
    end give the same result or the same error. *)
Theorem updateProperty_ignores_photo_failures (id : string) (pa : Patch)
    (u : option string) (w : World) (f : Op -> option Fail) :
  (forall o, photo_assoc_op o = false -> f o = w_fail w o) ->
  fst (updateProperty id pa u (set_fail w f)) = fst (updateProperty id pa u w).
Proof.
  intros Hf. rewrite !updateProperty_outcome.
  unfold repo_findPropertyById, repo_updateProperty, mbind, store_call, get_world,
    mret, mthrow, modify_db.
  cbn. rewrite Hf by reflexivity.
  destruct (w_fail w (OpFindProperty id)); cbn; [reflexivity|].
  destruct (find_prop id (properties (w_db w))); cbn; [|reflexivity].
  destruct (denies u (owner_id p)); [reflexivity|]. cbn.
  rewrite Hf by reflexivity. destruct (w_fail w (OpUpdateProperty id)); cbn; [reflexivity|].
  by destruct (find _ _).
Qed.

Lemma updateProperty_ignores_photo_failures_witness :
  fst (updateProperty "p1" (mkPatch [] (Some ["https://cdn/3.jpg"])) (Some "o1")
         (set_fail (demo_world no_failures) (fun o => if photo_assoc_op o then Some FThrow else None)))
  = fst (updateProperty "p1" (mkPatch [] (Some ["https://cdn/3.jpg"])) (Some "o1")
           (demo_world no_failures)).
Proof.
  apply updateProperty_ignores_photo_failures. intros o Ho. cbn. by rewrite Ho.
Defined.

Lemma set_photo_property_linked (phid id : string) (d : DB) (x : string) :
  linked id d x -> linked id (set_photo_property phid id d) x.
Proof.
  intros [ph [Hin [Hu Hp]]].
  eexists. split; [apply in_map; exact Hin|].
  destruct (String.eqb (photo_id ph) phid); simpl; auto.
Qed.

Lemma set_photo_property_links_self (ph : Photo) (id : string) (d : DB) :
  In ph (photos d) -> linked id (set_photo_property (photo_id ph) id d) (url ph).
Proof.
  intros Hin. eexists. split; [apply in_map; exact Hin|].
  rewrite String.eqb_refl. simpl. auto.
Qed.

Lemma insert_rows_linked (rows : list Photo) (d : DB) (id x : string) :
  linked id d x -> linked id (insert_rows rows d) x.
Proof.
  revert d. induction rows as [|r rs IH]; intros d Hl; simpl; [done|].
  apply IH. destruct Hl as [ph [Hin H]]. exists ph. split; [|done].
  simpl. apply in_or_app. by left.
Qed.

Lemma insert_rows_row (rows : list Photo) (d : DB) (id x : string) :
  Exists (fun r => url r = x /\ property_id r = Some id) rows ->
  linked id (insert_rows rows d) x.
Proof.
  revert d. induction rows as [|r rs IH]; intros d He; [inversion He|].
  apply Exists_cons in He as [[Hu Hp]|He]; simpl.
  - apply insert_rows_linked. eexists. split; [apply in_or_app; right; by left|].
    simpl. auto.
  - by apply IH.
Qed.

Lemma find_orphan_by_url_some (x : string) (d : DB) (ph : Photo) :
  find_orphan_by_url x d = Some ph -> In ph (photos d) /\ url ph = x.
Proof.
  unfold find_orphan_by_url. intros H. apply List.find_some in H as [Hin H].
  apply andb_prop in H as [H _]. apply String.eqb_eq in H. done.
Qed.

Lemma assoc_one_nofail (id : string) (u : option string) (x : string)
    (acc : list Photo) (w : World) :
  (forall o, w_fail w o = None) ->
  exists acc' w', assoc_one id u x acc w = (Ret acc', w') /\ w_fail w' = w_fail w /\
    (forall y, covered id (w_db w) acc y -> covered id (w_db w') acc' y) /\
    covered id (w_db w') acc' x.
Proof.
  intros Hf. unfold assoc_one, mcatch, mbind, store_call, get_world, mret, mthrow, modify_db.
  cbn. rewrite Hf. cbn.
  destruct (find_orphan_by_url x (w_db w)) as [ph|] eqn:E; cbn.
  - rewrite Hf. cbn. eexists _, _. split; [reflexivity|]. split; [reflexivity|].
    apply find_orphan_by_url_some in E as [Hin Hu]. split.
    + intros y [Hl|He]; [left; by apply set_photo_property_linked|by right].
    + left. rewrite <-Hu. by apply set_photo_property_links_self.
  - eexists _, _. split; [reflexivity|]. split; [reflexivity|]. split.
    + intros y [Hl|He]; [by left|right; apply Exists_app; by left].
    + right. apply Exists_app. right. constructor. simpl. auto.
Qed.

Lemma assoc_loop_nofail (id : string) (u : option string) (urls : list string)
    (acc : list Photo) (w : World) :
  (forall o, w_fail w o = None) ->
  exists acc' w', assoc_loop id u urls acc w = (Ret acc', w') /\ w_fail w' = w_fail w /\
    (forall y, covered id (w_db w) acc y -> covered id (w_db w') acc' y) /\
    (forall y, In y urls -> covered id (w_db w') acc' y).
Proof.
  revert acc w. induction urls as [|x xs IH]; intros acc w Hf; simpl.
  - eexists _, _. split; [reflexivity|]. split; [done|]. split; [done|]. done.
  - destruct (assoc_one_nofail id u x acc w Hf) as [acc1 [w1 [H1 [Hf1 [Hk1 Hx1]]]]].
    destruct (IH acc1 w1) as [acc' [w' [H [Hf' [Hk Hall]]]]]; [congruence|].
    exists acc', w'. unfold mbind. rewrite H1, H. split; [done|]. split; [congruence|].
    split; [auto|]. intros y [<-|Hy]; auto.
Qed.

Lemma assoc_photos_links (id : string) (pa : Patch) (u : option string) (w : World)
    (imgs : list string) :
  (forall o, w_fail w o = None) -> patch_images pa = Some imgs ->
  forall x, In x imgs -> linked id (w_db (snd (assoc_photos id pa u w))) x.
Proof.
  intros Hf Himg x Hx. destruct imgs as [|i is]; [contradiction|].
  unfold assoc_photos, getSupabaseOrThrow, mcatch, mbind, store_call, mret, mthrow,
    modify_db.
  rewrite Himg. cbn -[assoc_loop]. rewrite Hf. cbn -[assoc_loop].
  destruct (assoc_loop_nofail id u (i :: is) []
              (log_event w (EStore OpGetClient))) as [acc' [w' [Hl [Hf' [_ Hcov]]]]];
    [done|].
  rewrite Hl. destruct (Hcov x Hx) as [Hlk|He].
  - destruct acc' as [|r rs]; cbn -[insert_rows]; [done|]. rewrite Hf'. cbn -[insert_rows]. rewrite Hf. cbn -[insert_rows].
    by apply insert_rows_linked.
  - destruct acc' as [|r rs]; [inversion He|]. cbn -[insert_rows]. rewrite Hf'. cbn -[insert_rows]. rewrite Hf. cbn -[insert_rows].
    by apply insert_rows_row.
Qed.

Lemma find_prop_map_apply_patch (id : string) (pa : Patch) (d : DB) (p : Property) :
  find_prop id (properties d) = Some p ->
  find_prop id (properties (map_prop id (apply_patch pa) d)) = Some (apply_patch pa p).
Proof.
  unfold find_prop, map_prop. simpl. induction (properties d) as [|q qs IH]; simpl;
    [discriminate|].
  destruct (String.eqb (prop_id q) id) eqn:E; simpl.
  - intros [= ->]. simpl. by rewrite E.
  - rewrite E. exact IH.
Qed.

(** When every store call succeeds, an update by an allowed requester that
    carries an image list leaves, for each of its URLs, a photo row with
    that URL pointing at the property: an orphan row relinked or a row
    inserted. *)
Theorem updateProperty_links_images (id : string) (pa : Patch) (u : option string)
    (w : World) (p : Property) (imgs : list string) :
  (forall o, w_fail w o = None) ->
  find_prop id (properties (w_db w)) = Some p ->
  denies u (owner_id p) = false ->
  patch_images pa = Some imgs ->
  match updateProperty id pa u w with
  | (Ret _, w') => forall x, In x imgs -> linked id (w_db w') x
  | (Throw _, _) => False
  end.
Proof.
  intros Hf Hp Hd Himg.
  unfold updateProperty, repo_findPropertyById, repo_updateProperty, mbind, store_call,
    get_world, mret, mthrow, modify_db.
  cbn -[assoc_photos find_prop map_prop]. rewrite Hf. cbn -[assoc_photos find_prop map_prop]. rewrite Hp, Hd.
  cbn -[assoc_photos find_prop map_prop]. rewrite Hf. cbn -[assoc_photos find_prop map_prop].
  rewrite (find_prop_map_apply_patch id pa (w_db w) p Hp). cbn -[assoc_photos find_prop map_prop].
  match goal with |- context [assoc_photos id pa u ?w2] =>
    pose proof (assoc_photos_ret id pa u w2) as Hr;
    pose proof (assoc_photos_links id pa u w2 imgs ltac:(exact Hf) Himg) as Hl;
    destruct (assoc_photos id pa u w2) as [[[]|e] w3]; simpl in Hr, Hl; [|discriminate]
  end.
  cbn. exact Hl.
Qed.

Lemma updateProperty_links_images_witness :
  match updateProperty "p1" (mkPatch [] (Some ["https://cdn/3.jpg"; "https://cdn/4.jpg"]))
          (Some "o1") (demo_world no_failures) with
  | (Ret _, w') => forall x, In x ["https://cdn/3.jpg"; "https://cdn/4.jpg"] ->
                   linked "p1" (w_db w') x
  | (Throw _, _) => False
  end.
Proof.
  apply (updateProperty_links_images _ _ _ _
           (mkProperty "p1" "o1" ["https://cdn/3.jpg"] [("city", "A")] 0));
    reflexivity.
Defined.

Lemma assoc_photos_no_images (id : string) (pa : Patch) (u : option string) (w : World) :
  patch_images pa = None \/ patch_images pa = Some [] ->
  assoc_photos id pa u w = (Ret tt, w).
Proof. intros [H|H]; unfold assoc_photos, mcatch, mret; by rewrite H. Qed.

(** An update whose [images] is absent or empty makes no photo-association
    store call and leaves the photos table as it was. *)
Theorem updateProperty_no_images_no_photo_calls (id : string) (pa : Patch)
    (u : option string) (w : World) :
  patch_images pa = None \/ patch_images pa = Some [] ->
  let w' := snd (updateProperty id pa u w) in
  photos (w_db w') = photos (w_db w) /\
  exists l, w_log w' = w_log w ++ l /\ Forall (fun e => photo_assoc_event e = false) l.
Proof.
  intros Hi.
  unfold updateProperty, repo_findPropertyById, repo_updateProperty, mbind, store_call,
    get_world, mret, mthrow, modify_db.
  cbn -[assoc_photos find_prop map_prop].
  destruct (w_fail w (OpFindProperty id)); cbn -[assoc_photos find_prop map_prop].
  { split; [done|]. eexists. split; [reflexivity|]. repeat constructor. }
  destruct (find_prop id (properties (w_db w))) as [p|]; cbn -[assoc_photos find_prop map_prop].
  2: { split; [done|]. eexists. split; [reflexivity|]. repeat constructor. }
  destruct (denies u (owner_id p)); cbn -[assoc_photos find_prop map_prop].
  { split; [done|]. eexists. split; [reflexivity|]. repeat constructor. }
  destruct (w_fail w (OpUpdateProperty id)); cbn -[assoc_photos find_prop map_prop].
  { split; [done|]. eexists. split; [rewrite <-app_assoc; reflexivity|].
    repeat constructor. }
  destruct (find_prop id (properties (map_prop id (apply_patch pa) (w_db w)))); cbn -[assoc_photos find_prop map_prop].
  2: { split; [done|]. eexists. split; [rewrite <-app_assoc; reflexivity|].
       repeat constructor. }
  rewrite assoc_photos_no_images by exact Hi. cbn.
  split; [done|]. eexists. split; [rewrite <-!app_assoc; reflexivity|].
  repeat constructor.
Qed.

Lemma updateProperty_no_images_no_photo_calls_witness :
  let w' := snd (updateProperty "p1" (mkPatch [("title", "X")] None) (Some "o1")
                   (demo_world no_failures)) in
  photos (w_db w') = photos (w_db (demo_world no_failures)) /\
  exists l, w_log w' = w_log (demo_world no_failures) ++ l /\
            Forall (fun e => photo_assoc_event e = false) l.
Proof. apply updateProperty_no_images_no_photo_calls. by left. Defined.

(** ** Caching and the route handlers *)

Lemma createProperty_never_throws (body : Body) (userId : string) (w : World) :
  exists r, fst (createProperty body userId w) = Ret r.
Proof.
  unfold createProperty. destruct (insertPropertySchema_safeParse body); [eexists; reflexivity|].
  unfold mcatch. match goal with |- context [match ?t w with _ => _ end] =>
    destruct (t w) as [[r|e] w'] end; eexists; reflexivity.
Qed.

(** [createProperty] never throws; a call that returns an error leaves the
    cache as it was, and a call that returns data drops exactly the
    entries of the listing namespace [properties:]. *)
Theorem createProperty_cache_effect (body : Body) (userId : string) (w : World) :
  match createProperty body userId w with
  | (Ret (CreateData _), w') =>
      w_cache w' = filter (fun kv : string * (CVal * Z) => String.prefix "properties:" kv.1 = false)
                     (w_cache w)
  | (Ret (CreateError _), w') => w_cache w' = w_cache w
  | (Throw _, _) => False
  end.
Proof.
  unfold createProperty.
  destruct (insertPropertySchema_safeParse body) as [msg|parsed]; [reflexivity|].
  unfold mcatch, mbind, getSupabaseOrThrow, rpc_create_property_with_photos,
    store_call, get_world, mret, mthrow, modify_db, cache_invalidate.
  cbn. destruct (w_fail w OpGetClient) as [f|]; cbn; [reflexivity|].
  destruct (w_fail w OpRpcCreate) as [[|]|]; cbn; [reflexivity|reflexivity|].
  destruct (create_property_with_photos _ _ _ _ _) as [[np d']|]; reflexivity.
Qed.

(** A row read from the store is cached: when the cache holds no live entry
    for the id (none, or an expired one), with a non-negative TTL, the next
    [getPropertyById] for the id returns the same row with no store call. *)
Theorem getPropertyById_caches_hit (id : string) (w : World) (p : Property) :
  live_entry (w_cache w) (detail_key id) (w_now w) = None ->
  w_fail w (OpFindProperty id) = None ->
  find_prop id (properties (w_db w)) = Some p ->
  (0 <= w_ttl_detail w)%Z ->
  let '(o, w1) := getPropertyById id w in
  o = Ret (Some (CProp p)) /\
  getPropertyById id w1 = (Ret (Some (CProp p)), log_event w1 (ECacheGet (detail_key id))).
Proof.
  intros Hc Hf Hp Ht. unfold live_entry in Hc.
  unfold getPropertyById at 1. unfold cache_get, mbind, repo_findPropertyById, store_call,
    get_world, mret, mthrow, cache_set.
  cbn -[detail_key find_prop].
  destruct (w_cache w !! detail_key id) as [[v e]|];
    [destruct (Z.ltb e (w_now w)); [|discriminate]|];
    cbn -[detail_key find_prop]; rewrite Hf;
    cbn -[detail_key find_prop]; rewrite Hp; cbn -[detail_key find_prop];
    (split; [reflexivity|]);
    unfold getPropertyById, cache_get, mbind, mret; cbn -[detail_key];
    rewrite lookup_insert_eq;
    destruct (Z.ltb_spec (w_now w + w_ttl_detail w) (w_now w)); (lia || reflexivity).
Qed.

(** A listing read from the store is cached under its key: when the cache
    holds no live entry for the key (none, or an expired one), with a
    non-negative TTL, the next [getProperties] call with any parameters
    giving the same key returns the same value with no store call. *)
Theorem getProperties_caches_result (params params' : GetPropertiesParams) (w : World) :
  listing_key params' = listing_key params ->
  live_entry (w_cache w) (listing_key params) (w_now w) = None ->
  w_fail w OpFindAll = None ->
  (0 <= w_ttl_list w)%Z ->
  let '(o, w1) := getProperties params w in
  exists v, o = Ret v /\
    getProperties params' w1 = (Ret v, log_event w1 (ECacheGet (listing_key params))).
Proof.
  intros Hk Hc Hf Ht. unfold live_entry in Hc.
  unfold getProperties at 1. unfold cache_get, mbind, repo_findAllProperties, store_call,
    get_world, mret, mthrow, cache_set.
  cbn -[listing_key matching_rows mk_pagination].
  destruct (w_cache w !! listing_key params) as [[v e]|];
    [destruct (Z.ltb e (w_now w)); [|discriminate]|];
    cbn -[listing_key matching_rows mk_pagination]; rewrite Hf;
    cbn -[listing_key matching_rows mk_pagination];
    (eexists; split; [reflexivity|]);
    unfold getProperties, cache_get, mbind, mret; cbn -[listing_key]; rewrite Hk;
    rewrite lookup_insert_eq;
    destruct (Z.ltb_spec (w_now w + w_ttl_list w) (w_now w)); (lia || reflexivity).
Qed.

(** [GET /] answers 200 with a live cached listing without calling the
    store, whatever the store would do. *)
Theorem route_get_properties_serves_live_cache (params : GetPropertiesParams) (w : World)
    (v : CVal) :
  live_entry (w_cache w) (listing_key params) (w_now w) = Some v ->
  route_get_properties params w
    = (Ret (mkResponse 200 (PSuccess (RValue v) "Properties fetched successfully")),
       log_event w (ECacheGet (listing_key params))).
Proof.
  unfold live_entry. intros H.
  destruct (w_cache w !! listing_key params) as [[v0 e]|] eqn:Hc; [|discriminate].
  destruct (Z.ltb e (w_now w)) eqn:He; [discriminate|]. injection H as <-.
  unfold route_get_properties, getProperties, mcatch, mbind, cache_get, mret.
  cbn -[listing_key]. rewrite Hc, He. reflexivity.
Qed.

(** [GET /] answers 500 when there is no live cached listing and the
    store read fails, and caches nothing under the key. *)
Theorem route_get_properties_store_failure (params : GetPropertiesParams) (w : World) :
  live_entry (w_cache w) (listing_key params) (w_now w) = None ->
  w_fail w OpFindAll <> None ->
  let '(o, w') := route_get_properties params w in
  o = Ret (mkResponse 500 (PError "Failed to fetch properties")) /\
  w_cache w' !! listing_key params = None.
Proof.
  unfold live_entry. intros H Hf.
  unfold route_get_properties, getProperties, mcatch, mbind, cache_get, mret,
    repo_findAllProperties, store_call, mthrow.
  cbn -[listing_key].
  destruct (w_cache w !! listing_key params) as [[v0 e]|] eqn:Hc.
  - destruct (Z.ltb e (w_now w)) eqn:He; [|discriminate]. cbn -[listing_key].
    destruct (w_fail w OpFindAll); [|contradiction]. cbn -[listing_key].
    split; [reflexivity|]. apply lookup_delete_eq.
  - cbn -[listing_key].
    destruct (w_fail w OpFindAll); [|contradiction]. cbn -[listing_key].
    split; [reflexivity|]. exact Hc.
Qed.

(** [GET /:id] with no cache entry for the id answers 500 when the store
    read fails, 404 when the row is absent, and 200 with the row
    otherwise. *)
Theorem route_get_property_uncached (id : string) (w : World) :
  w_cache w !! detail_key id = None ->
  fst (route_get_property id w) = Ret
    (match w_fail w (OpFindProperty id) with
     | Some _ => mkResponse 500 (PError "Failed to fetch property")
     | None =>
         match find_prop id (properties (w_db w)) with
         | None => mkResponse 404 (PError "Property not found")
         | Some p => mkResponse 200 (PSuccess (RValue (CProp p)) "Property fetched successfully")
         end
     end).
Proof.
  intros Hc. unfold route_get_property, getPropertyById, mcatch, mbind, cache_get, mret,
    repo_findPropertyById, store_call, get_world, mthrow, cache_set.
  cbn -[detail_key find_prop]. rewrite Hc. cbn -[detail_key find_prop].
  destruct (w_fail w (OpFindProperty id)); cbn -[detail_key find_prop]; [reflexivity|].
  by destruct (find_prop id (properties (w_db w))).
Qed.

(** [POST /] never answers 500: [createProperty] turns its failures into
    an error value, so the status is 200 or 400. *)
Theorem route_create_never_500 (body : Body) (userId : string) (w : World) :
  exists r, fst (route_create_property body userId w) = Ret r /\
            (res_status r = 200 \/ res_status r = 400)%Z.
Proof.
  destruct (createProperty_never_throws body userId w) as [c Hc].
  unfold route_create_property, mcatch, mbind.
  destruct (createProperty body userId w) as [o w'].
  simpl in Hc. subst o. destruct c as [e|d]; cbn.
  - destruct (String.eqb e ""); eexists; split; try reflexivity; cbn; auto.
  - eexists. split; [reflexivity|]. cbn. auto.
Qed.

Lemma getPropertyById_caches_hit_witness :
  let '(o, w1) := getPropertyById "p1" (demo_world no_failures) in
  o = Ret (Some (CProp (mkProperty "p1" "o1" ["https://cdn/3.jpg"] [("city", "A")] 0))) /\
  getPropertyById "p1" w1
    = (Ret (Some (CProp (mkProperty "p1" "o1" ["https://cdn/3.jpg"] [("city", "A")] 0))),
       log_event w1 (ECacheGet (detail_key "p1"))).
Proof.
  apply getPropertyById_caches_hit; [vm_compute; reflexivity|reflexivity|reflexivity|cbn; lia].
Defined.

(** A listing query for city [A], and the same query with page ["0"] and
    limit ["20"]: both clamp to page 1 and limit 20. *)
Definition demo_params : GetPropertiesParams :=
  mkParams None (Some "A") None None None None S754_nan S754_nan.

Definition demo_params_explicit : GetPropertiesParams :=
  mkParams None (Some "A") None None None None (js_of_Z 0) (js_of_Z 20).

Lemma getProperties_caches_result_witness :
  let '(o, w1) := getProperties demo_params (demo_world no_failures) in
  exists v, o = Ret v /\
    getProperties demo_params_explicit w1
      = (Ret v, log_event w1 (ECacheGet (listing_key demo_params))).
Proof.
  apply getProperties_caches_result; [vm_compute; reflexivity|vm_compute; reflexivity|
                                      reflexivity|cbn; lia].
Defined.

(** An empty listing held in the cache while every store call fails. *)
Definition cached_listing : CVal := CList (mkListResult [] (mk_pagination (js_of_Z 1) (js_of_Z 20) 0)).

Definition store_down_world : World :=
  mkWorld demo_db {[ listing_key demo_params := (cached_listing, 60%Z) ]} [] 0
    (fun _ => Some FThrow) 60 300.

Lemma route_get_properties_serves_live_cache_witness :
  route_get_properties demo_params store_down_world
    = (Ret (mkResponse 200 (PSuccess (RValue cached_listing) "Properties fetched successfully")),
       log_event store_down_world (ECacheGet (listing_key demo_params))).
Proof. apply route_get_properties_serves_live_cache. vm_compute. reflexivity. Defined.

Lemma route_get_properties_store_failure_witness :
  let '(o, w') := route_get_properties demo_params (demo_world (fun _ => Some FErr)) in
  o = Ret (mkResponse 500 (PError "Failed to fetch properties")) /\
  w_cache w' !! listing_key demo_params = None.
Proof.
  apply route_get_properties_store_failure; [vm_compute; reflexivity|cbn; discriminate].
Defined.

Lemma route_get_property_uncached_witness :
  fst (route_get_property "p9" (demo_world no_failures)) = Ret
    (match w_fail (demo_world no_failures) (OpFindProperty "p9") with
     | Some _ => mkResponse 500 (PError "Failed to fetch property")
     | None =>
         match find_prop "p9" (properties (w_db (demo_world no_failures))) with
         | None => mkResponse 404 (PError "Property not found")
         | Some p => mkResponse 200 (PSuccess (RValue (CProp p)) "Property fetched successfully")
         end
     end).
Proof. apply route_get_property_uncached. reflexivity. Defined.

(** ** The reconcile sweep *)

(** Every column of every photo row but its property link, in row order. *)
Definition photo_keys (d : DB)
  : list (string * string * string * string * option string * string) :=
  map (fun ph => (photo_id ph, url ph, thumbnail_url ph, category ph, uploader_id ph, source ph))
    (photos d).

(** [w'] differs from [w] at most in the photos' property links and the log. *)
Definition reconcile_frame (w w' : World) : Prop :=
  properties (w_db w') = properties (w_db w) /\ photo_keys (w_db w') = photo_keys (w_db w) /\
  next_id (w_db w') = next_id (w_db w) /\ w_cache w' = w_cache w /\ w_fail w' = w_fail w.

(** The pairs the sweep reports over a batch when every store call
    succeeds: each photo with the first property listing its URL. *)
Definition reconcile_pairs (d : DB) (ps : list Photo) : list (string * string) :=
  flat_map (fun ph => match find_prop_with_image (url ph) d with
                      | Some q => [(photo_id ph, prop_id q)]
                      | None => []
                      end) ps.

Lemma reconcile_frame_refl (w : World) (e : Event) : reconcile_frame w (log_event w e).
Proof. repeat split. Qed.

Lemma reconcile_frame_trans (w1 w2 w3 : World) :
  reconcile_frame w1 w2 -> reconcile_frame w2 w3 -> reconcile_frame w1 w3.
Proof. intros (A1 & B1 & C1 & D1 & E1) (A2 & B2 & C2 & D2 & E2). repeat split; congruence. Qed.

Lemma photo_keys_set_photo_property (phid pid : string) (d : DB) :
  photo_keys (set_photo_property phid pid d) = photo_keys d.
Proof.
  unfold photo_keys, set_photo_property. simpl. rewrite map_map.
  apply map_ext. intros ph. by destruct (String.eqb (photo_id ph) phid).
Qed.

Lemma reconcile_pairs_props (d1 d2 : DB) (ps : list Photo) :
  properties d1 = properties d2 -> reconcile_pairs d1 ps = reconcile_pairs d2 ps.
Proof. unfold reconcile_pairs, find_prop_with_image. by intros ->. Qed.

Lemma reconcile_one_step (p : Photo) (acc : list (string * string)) (w : World) :
  exists l w', reconcile_one p acc w = (Ret (acc ++ l), w') /\ reconcile_frame w w' /\
    l `sublist_of` reconcile_pairs (w_db w) [p] /\
    ((forall o, w_fail w o = None) -> l = reconcile_pairs (w_db w) [p]).
Proof.
  unfold reconcile_one, mcatch, mbind, store_call, get_world, mret, mthrow, modify_db.
  cbn -[find_prop_with_image reconcile_pairs].
  destruct (w_fail w (OpLookupPropertyByImage (url p))) as [[|]|] eqn:Hl;
    cbn -[find_prop_with_image reconcile_pairs].
  1,2: exists []; eexists; rewrite app_nil_r; split; [reflexivity|];
       split; [repeat split|]; split; [apply sublist_nil_l|];
       intros Hf; by rewrite Hf in Hl.
  unfold reconcile_pairs. simpl.
  destruct (find_prop_with_image (url p) (w_db w)) as [q|] eqn:E; cbn.
  2: { exists []; eexists; rewrite app_nil_r; split; [reflexivity|].
       split; [repeat split|]. split; [apply sublist_nil_l|done]. }
  destruct (w_fail w (OpUpdatePhoto (photo_id p))) as [[|]|] eqn:Hu; cbn.
  - eexists _, _. split; [reflexivity|]. split; [repeat split|]. split; [done|done].
  - exists []; eexists; rewrite app_nil_r; split; [reflexivity|].
    split; [repeat split|]. split; [apply sublist_nil_l|]. intros Hf; by rewrite Hf in Hu.
  - eexists _, _. split; [reflexivity|]. split; [|split; done].
    repeat split; cbn. apply photo_keys_set_photo_property.
Qed.

Lemma reconcile_loop_step (ps : list Photo) (acc : list (string * string)) (w : World) :
  exists l w', reconcile_loop ps acc w = (Ret (acc ++ l), w') /\ reconcile_frame w w' /\
    l `sublist_of` reconcile_pairs (w_db w) ps /\
    ((forall o, w_fail w o = None) -> l = reconcile_pairs (w_db w) ps).
Proof.
  revert acc w. induction ps as [|p ps IH]; intros acc w; cbn -[reconcile_pairs reconcile_one].
  - exists []; eexists; rewrite app_nil_r. split; [reflexivity|].
    split; [|split; [apply sublist_nil_l|done]]. repeat split.
  - destruct (reconcile_one_step p acc w) as [l1 [w1 [H1 [Hfr1 [Hs1 He1]]]]].
    destruct (IH (acc ++ l1) w1) as [l2 [w2 [H2 [Hfr2 [Hs2 He2]]]]].
    destruct Hfr1 as (Hp1 & Hrest1).
    rewrite (reconcile_pairs_props (w_db w1) (w_db w)) in Hs2, He2 by exact Hp1.
    exists (l1 ++ l2), w2. unfold mbind. rewrite H1, H2, app_assoc.
    split; [reflexivity|]. split; [eapply reconcile_frame_trans; [split; [exact Hp1|exact Hrest1]|exact Hfr2]|].
    assert (Hcons : reconcile_pairs (w_db w) (p :: ps)
                    = reconcile_pairs (w_db w) [p] ++ reconcile_pairs (w_db w) ps).
    { unfold reconcile_pairs. simpl. by rewrite app_nil_r. }
    rewrite Hcons. split; [by apply sublist_app|].
    intros Hf. rewrite He1 by done. rewrite He2; [done|].
    destruct Hrest1 as (_ & _ & _ & Hf1). rewrite Hf1. done.
Qed.

(** The sweep's batch. *)
Definition reconcile_batch (d : DB) : list Photo := List.firstn 200 (orphans d).

Lemma reconcile_photos_shape (w : World) :
  match reconcile_photos w with
  | (Ret (Http200 l), w') =>
      reconcile_frame w w' /\ l `sublist_of` reconcile_pairs (w_db w) (reconcile_batch (w_db w)) /\
      ((forall o, w_fail w o = None) -> l = reconcile_pairs (w_db w) (reconcile_batch (w_db w)))
  | (Ret (Http500 _), w') => reconcile_frame w w' /\ exists o, w_fail w o <> None
  | (Throw _, _) => False
  end.
Proof.
  unfold reconcile_photos, getSupabaseOrThrow, mcatch, mbind, store_call, get_world, mret,
    mthrow, reconcile_batch.
  cbn -[reconcile_loop List.firstn orphans reconcile_pairs].
  destruct (w_fail w OpGetClient) eqn:Hc; cbn -[reconcile_loop List.firstn orphans reconcile_pairs].
  { split; [repeat split|]. exists OpGetClient. by rewrite Hc. }
  destruct (w_fail w OpFetchOrphans) as [[|]|] eqn:Hfo;
    cbn -[reconcile_loop List.firstn orphans reconcile_pairs].
  - split; [repeat split|]. split; [apply sublist_nil_l|]. intros Hf. by rewrite Hf in Hfo.
  - split; [repeat split|]. exists OpFetchOrphans. by rewrite Hfo.
  - match goal with |- context [reconcile_loop ?ps [] ?w0] =>
      destruct (reconcile_loop_step ps [] w0) as [l [w' [H [Hfr [Hs He]]]]]; rewrite H
    end.
    cbn -[reconcile_pairs]. split; [|split; [exact Hs|exact He]].
    eapply reconcile_frame_trans; [|exact Hfr]. repeat split.
Qed.

(** The reconcile sweep never changes the properties table, the number
    and order of the photo rows, any column of a photo row other than its
    property link, the id generator or the cache. *)
Theorem reconcile_photos_frame (w : World) :
  let w' := snd (reconcile_photos w) in
  properties (w_db w') = properties (w_db w) /\ photo_keys (w_db w') = photo_keys (w_db w) /\
  next_id (w_db w') = next_id (w_db w) /\ w_cache w' = w_cache w.
Proof.
  pose proof (reconcile_photos_shape w) as H.
  destruct (reconcile_photos w) as [[[l|e]|e] w']; simpl.
  - destruct H as ((A & B & C & D & _) & _). done.
  - destruct H as ((A & B & C & D & _) & _). done.
  - done.
Qed.

Lemma sublist_In {A} (l k : list A) (x : A) : l `sublist_of` k -> In x l -> In x k.
Proof. induction 1; simpl; intuition. Qed.

Lemma find_prop_with_image_some (u : string) (d : DB) (q : Property) :
  find_prop_with_image u d = Some q -> In q (properties d) /\ In u (images q).
Proof.
  unfold find_prop_with_image. intros H. apply find_some in H as [Hin Hq].
  split; [exact Hin|]. apply existsb_exists in Hq as [u' [Hu' Heq]].
  apply String.eqb_eq in Heq. by subst u'.
Qed.

Lemma find_prop_with_image_none (u : string) (d : DB) (q : Property) :
  find_prop_with_image u d = None -> In q (properties d) -> ~ In u (images q).
Proof.
  unfold find_prop_with_image. intros H Hq Hu. eapply find_none in H; [|exact Hq].
  cbn in H. assert (existsb (String.eqb u) (images q) = true) as Ht; [|congruence].
  apply existsb_exists. exists u. split; [exact Hu|apply String.eqb_refl].
Qed.

Lemma in_reconcile_pairs (d : DB) (ps : list Photo) (x : string * string) :
  In x (reconcile_pairs d ps) ->
  exists ph q, In ph ps /\ In q (properties d) /\ In (url ph) (images q) /\
               x = (photo_id ph, prop_id q).
Proof.
  unfold reconcile_pairs. intros H. apply in_flat_map in H as [ph [Hph Hx]].
  destruct (find_prop_with_image (url ph) d) as [q|] eqn:E; [|contradiction].
  destruct Hx as [<-|[]]. apply find_prop_with_image_some in E as [Hq Hu].
  exists ph, q. auto.
Qed.

(** Whatever the store calls do, every pair the sweep reports comes from
    an orphan of its batch and a property listing that orphan's URL. *)
Lemma reconcile_reports_batch (w : World) :
  match fst (reconcile_photos w) with
  | Ret (Http200 l) =>
      forall x, In x l -> exists ph q, In ph (reconcile_batch (w_db w)) /\
        In q (properties (w_db w)) /\ In (url ph) (images q) /\ x = (photo_id ph, prop_id q)
  | _ => True
  end.
Proof.
  pose proof (reconcile_photos_shape w) as H.
  destruct (reconcile_photos w) as [[[l|e]|e] w']; simpl; [|done|done].
  destruct H as (_ & Hs & _). intros x Hx. apply in_reconcile_pairs.
  eapply sublist_In; [exact Hs|exact Hx].
Qed.

(** With no store failure, one step links the photo when a property lists
    its URL, and reports the photo only then. *)
Lemma reconcile_one_nofail_links (p : Photo) (acc : list (string * string)) (w : World) :
  (forall o, w_fail w o = None) ->
  exists l w', reconcile_one p acc w = (Ret (acc ++ l), w') /\ w_fail w' = w_fail w /\
    properties (w_db w') = properties (w_db w) /\
    (forall q, In q (orphans (w_db w')) ->
       In q (orphans (w_db w)) /\
       (q = p -> find_prop_with_image (url q) (w_db w') = None) /\
       (forall x, In x l -> photo_id q <> x.1)).
Proof.
  intros Hf. unfold reconcile_one, mcatch, mbind, store_call, get_world, mret, modify_db.
  cbn -[find_prop_with_image orphans]. rewrite Hf. cbn -[find_prop_with_image orphans].
  destruct (find_prop_with_image (url p) (w_db w)) as [m|] eqn:E;
    cbn -[find_prop_with_image orphans].
  - rewrite Hf. cbn -[find_prop_with_image orphans].
    eexists _, _. split; [reflexivity|]. split; [reflexivity|]. split; [reflexivity|].
    intros q Hq. apply orphans_set_photo_property in Hq as [Hq Hne].
    split; [exact Hq|]. split; [intros ->; contradiction|].
    intros x [<-|[]]. exact Hne.
  - exists []. eexists. rewrite app_nil_r. split; [reflexivity|].
    split; [reflexivity|]. split; [reflexivity|].
    intros q Hq. split; [exact Hq|]. split; [intros ->; exact E|]. intros x [].
Qed.

Lemma reconcile_loop_nofail_links (ps : list Photo) (acc : list (string * string)) (w : World) :
  (forall o, w_fail w o = None) ->
  exists l w', reconcile_loop ps acc w = (Ret (acc ++ l), w') /\ w_fail w' = w_fail w /\
    properties (w_db w') = properties (w_db w) /\
    (forall q, In q (orphans (w_db w')) ->
       In q (orphans (w_db w)) /\
       (In q ps -> find_prop_with_image (url q) (w_db w') = None) /\
       (forall x, In x l -> photo_id q <> x.1)).
Proof.
  revert acc w. induction ps as [|p ps IH]; intros acc w Hf.
  - exists [], w. rewrite app_nil_r. split; [reflexivity|]. split; [reflexivity|].
    split; [reflexivity|]. intros q Hq. split; [exact Hq|]. split; [intros []|intros x []].
  - destruct (reconcile_one_nofail_links p acc w Hf) as (l1 & w1 & H1 & Hf1 & Hp1 & Hq1).
    destruct (IH (acc ++ l1) w1) as (l2 & w2 & H2 & Hf2 & Hp2 & Hq2);
      [intros o; rewrite Hf1; apply Hf|].
    exists (l1 ++ l2), w2. simpl. unfold mbind. rewrite H1, H2, app_assoc.
    split; [reflexivity|]. split; [congruence|]. split; [congruence|].
    intros q Hq. destruct (Hq2 q Hq) as (Hq' & Hin2 & Hx2).
    destruct (Hq1 q Hq') as (Hq'' & Hin1 & Hx1).
    split; [exact Hq''|]. split.
    + intros [<-|Hin]; [|by apply Hin2].
      rewrite (find_prop_with_image_props _ (w_db w2) (w_db w1)) by exact Hp2.
      by apply Hin1.
    + intros x Hx. apply in_app_or in Hx as [Hx|Hx]; [by apply Hx1|by apply Hx2].
Qed.

(** With no store failure, the sweep answers 200; afterwards no photo it
    reports is left an orphan, the orphans left were orphans before, and
    no photo of its batch is left an orphan while a property lists its
    URL. *)
Lemma reconcile_photos_nofail_links (w : World) :
  (forall o, w_fail w o = None) ->
  exists l w', reconcile_photos w = (Ret (Http200 l), w') /\
    properties (w_db w') = properties (w_db w) /\
    (forall q, In q (orphans (w_db w')) ->
       In q (orphans (w_db w)) /\
       (In q (reconcile_batch (w_db w)) -> find_prop_with_image (url q) (w_db w') = None) /\
       (forall x, In x l -> photo_id q <> x.1)).
Proof.
  intros Hf.
  unfold reconcile_photos, getSupabaseOrThrow, mcatch, mbind, store_call, get_world, mret,
    mthrow, reconcile_batch.
  cbn -[reconcile_loop List.firstn orphans find_prop_with_image]. rewrite Hf.
  cbn -[reconcile_loop List.firstn orphans find_prop_with_image]. rewrite Hf.
  cbn -[reconcile_loop List.firstn orphans find_prop_with_image].
  match goal with |- context [reconcile_loop ?ps [] ?w0] =>
    destruct (reconcile_loop_nofail_links ps [] w0) as (l & w' & H & _ & Hp & Hq);
      [intros o; apply Hf|]; rewrite H
  end.
  eexists _, _. split; [reflexivity|]. split; [exact Hp|]. exact Hq.
Qed.

(** Whatever the store calls do, each pair [(a, b)] the reconcile handler
    returns names an orphan photo row with id [a] and a property with id
    [b] whose image list contains that photo's URL. *)
Theorem reconcile_reports_sound (w : World) :
  match fst (reconcile_photos w) with
  | Ret (Http200 l) =>
      forall a b, In (a, b) l -> exists ph q,
        In ph (orphans (w_db w)) /\ photo_id ph = a /\
        In q (properties (w_db w)) /\ prop_id q = b /\ In (url ph) (images q)
  | _ => True
  end.
Proof.
  pose proof (reconcile_reports_batch w) as H.
  destruct (fst (reconcile_photos w)) as [[l|e]|e]; [|done|done].
  intros a b Hab. destruct (H (a, b) Hab) as (ph & q & Hph & Hq & Hu & Heq).
  injection Heq as -> ->. exists ph, q.
  split; [eapply in_firstn; exact Hph|]. auto.
Qed.

(** When every store call succeeds, the reconcile handler answers 200;
    afterwards no photo row with a reported id is left without a property,
    and no photo of its batch is left without one while some property
    lists its URL. *)
Theorem reconcile_nofail_links_reported (w : World) :
  (forall o, w_fail w o = None) ->
  exists l w', reconcile_photos w = (Ret (Http200 l), w') /\
    (forall a b q, In (a, b) l -> In q (orphans (w_db w')) -> photo_id q <> a) /\
    (forall q r, In q (reconcile_batch (w_db w)) -> In q (orphans (w_db w')) ->
       In r (properties (w_db w')) -> ~ In (url q) (images r)).
Proof.
  intros Hf. destruct (reconcile_photos_nofail_links w Hf) as (l & w' & H & _ & Hq).
  exists l, w'. split; [exact H|]. split.
  - intros a b q Hab Hq'. exact (proj2 (proj2 (Hq q Hq')) (a, b) Hab).
  - intros q r Hb Hq' Hr. apply find_prop_with_image_none with (d := w_db w'); [|exact Hr].
    exact (proj1 (proj2 (Hq q Hq')) Hb).
Qed.

Lemma reconcile_nofail_links_reported_witness :
  exists l w', reconcile_photos (demo_world no_failures) = (Ret (Http200 l), w') /\
    (forall a b q, In (a, b) l -> In q (orphans (w_db w')) -> photo_id q <> a) /\
    (forall q r, In q (reconcile_batch (w_db (demo_world no_failures))) ->
       In q (orphans (w_db w')) ->
       In r (properties (w_db w')) -> ~ In (url q) (images r)).
Proof. apply reconcile_nofail_links_reported. intros o. reflexivity. Defined.

(** C7 (amended): when the first sweep's store calls all succeed, a second
    sweep run right after it, whatever its own store failures, never
    reports a photo the first one reported; and when every orphan row fits
    in one batch (at most 200), it reports nothing at all: it answers an
    empty list, or fails as a whole. *)
Theorem reconcile_second_pass_empty (w : World) (f2 : Op -> option Fail) :
  (forall o, w_fail w o = None) ->
  (forall l1 l2 a b b', fst (reconcile_photos w) = Ret (Http200 l1) ->
     fst (reconcile_photos (set_fail (snd (reconcile_photos w)) f2)) = Ret (Http200 l2) ->
     In (a, b) l1 -> ~ In (a, b') l2) /\
  (length (orphans (w_db w)) <= 200 ->
   fst (reconcile_photos (set_fail (snd (reconcile_photos w)) f2)) = Ret (Http200 []) \/
   exists e, fst (reconcile_photos (set_fail (snd (reconcile_photos w)) f2)) = Ret (Http500 e)).
Proof.
  intros Hf. destruct (reconcile_photos_nofail_links w Hf) as (l & w1 & H1 & _ & Hq).
  rewrite H1. cbn [fst snd]. split.
  - intros l1 l2 a b b' [= <-] H2 Hab Hab'.
    pose proof (reconcile_reports_batch (set_fail w1 f2)) as Hr. rewrite H2 in Hr.
    destruct (Hr (a, b') Hab') as (ph & q & Hph & _ & _ & Heq). injection Heq as Ha _.
    apply in_firstn in Hph. cbn in Hph.
    exact (proj2 (proj2 (Hq ph Hph)) (a, b) Hab (eq_sym Ha)).
  - intros Hlen.
    assert (Hnone : forall q, In q (orphans (w_db w1)) ->
                    find_prop_with_image (url q) (w_db w1) = None).
    { intros q Hq'. destruct (Hq q Hq') as (Hq0 & Hb & _). apply Hb.
      unfold reconcile_batch. rewrite List.firstn_all2 by done. exact Hq0. }
    unfold reconcile_photos, getSupabaseOrThrow, mcatch, mbind, store_call, get_world, mret,
      mthrow. cbn -[List.firstn].
    destruct (f2 OpGetClient) as [?|]; cbn -[List.firstn]; [right; eauto|].
    destruct (f2 OpFetchOrphans) as [[|]|]; cbn -[List.firstn]; [left; reflexivity|right; eauto|].
    edestruct (reconcile_loop_nomatch (List.firstn 200 (orphans (w_db w1))) []) as [w2 H2];
      [|rewrite H2; left; reflexivity].
    intros q Hq'. apply in_firstn in Hq'. cbn. by apply Hnone.
Qed.

Lemma reconcile_second_pass_empty_witness :
  (forall l1 l2 a b b', fst (reconcile_photos (demo_world no_failures)) = Ret (Http200 l1) ->
     fst (reconcile_photos (set_fail (snd (reconcile_photos (demo_world no_failures)))
                              no_failures)) = Ret (Http200 l2) ->
     In (a, b) l1 -> ~ In (a, b') l2) /\
  (length (orphans (w_db (demo_world no_failures))) <= 200 ->
   fst (reconcile_photos (set_fail (snd (reconcile_photos (demo_world no_failures)))
                            no_failures)) = Ret (Http200 []) \/
   exists e, fst (reconcile_photos (set_fail (snd (reconcile_photos (demo_world no_failures)))
                                     no_failures)) = Ret (Http500 e)).
Proof. apply reconcile_second_pass_empty. intros o. reflexivity. Defined.
